(** * Project: board membership and status synchronisation

    A shallow embedding of [src/project.ts]: the URL parser [parseURL], the
    [Project] class (constructor, [init], [initFields], [getStatusField],
    [addToProject]) and the properties its specification states about them.

    Modelling conventions.
    - A JavaScript string is a [string]: a sequence of code units.  Only
      equality, concatenation, prefix and substring tests are used, and those
      agree on the UTF-8 and the UTF-16 view of well-formed text.
    - [this.fields], a JavaScript object used as a dictionary from field name to
      field entry, is a [FieldsObject]: its own properties, a
      [gmap string ProjectFieldEntry], and its prototype, which an assignment
      to the key [__proto__] replaces.  The class reads it at the key
      "Status" only.
    - A number is a [number]: [parseInt] gives the double nearest to the
      integer that the digits denote.
    - A value that may be [undefined] is an [option].
    - [throw] is the left injection of a sum; the named error kinds of the
      specification are the constructors of [error].
    - The remote API is reached through four calls only.  They are the fields
      of [Remote], acting on an abstract world [W]; every call the class makes
      is recorded in a [trace], so that "no mutation was issued" is a property
      of the trace.
    - [String.prototype.toLowerCase] is a built-in of the language; the class
      is parameterised by it, and [ascii_toLowerCase] is its restriction to
      the ASCII letters, used to evaluate examples. *)

From Stdlib Require Import NArith Ascii.
From stdpp Require Import gmap strings list fin_maps.

Local Open Scope N_scope.

(** ** Numbers *)

(** A JavaScript number, as far as [parseInt] can return one for a string of
    decimal digits: a natural number that a double holds, or [Infinity]. *)
Inductive number :=
| Finite (n : N)
| Infinity.

(** ** Strings *)

Module Str.

(** [strip_prefix lit s] is the rest of [s] after the literal [lit], when [s]
    starts with [lit]. *)
Fixpoint strip_prefix (lit s : string) : option string :=
  match lit with
  | EmptyString => Some s
  | String a lit' =>
      match s with
      | EmptyString => None
      | String b s' => if decide (a = b) then strip_prefix lit' s' else None
      end
  end.

Definition startsWith (s lit : string) : bool :=
  match strip_prefix lit s with Some _ => true | None => false end.

(** [s.includes(t)]: [t] occurs in [s] at some position. *)
Fixpoint includes (s t : string) : bool :=
  if startsWith s t then true
  else match s with
       | EmptyString => false
       | String _ s' => includes s' t
       end.

(** The longest prefix of [s] whose characters all satisfy [p], and what
    follows it: the greedy match of a character class under [+] or [*]. *)
Fixpoint span (p : ascii -> bool) (s : string) : string * string :=
  match s with
  | EmptyString => (EmptyString, EmptyString)
  | String a s' =>
      if p a then (let '(r, t) := span p s' in (String a r, t))
      else (EmptyString, s)
  end.

Fixpoint all (p : ascii -> bool) (s : string) : bool :=
  match s with
  | EmptyString => true
  | String a s' => p a && all p s'
  end.

Definition head_satisfies (p : ascii -> bool) (s : string) : bool :=
  match s with
  | EmptyString => false
  | String a _ => p a
  end.

(** The class [\d]: the ten ASCII digits. *)
Definition is_digit (a : ascii) : bool :=
  let n := N_of_ascii a in (48 <=? n) && (n <=? 57).

(** The class [[^/]]. *)
Definition not_slash (a : ascii) : bool :=
  negb (bool_decide (a = "/"%char)).

Definition lower_ascii (a : ascii) : ascii :=
  let n := N_of_ascii a in
  if (65 <=? n) && (n <=? 90) then ascii_of_N (n + 32) else a.

(** [toLowerCase] on text whose only letters are the ASCII ones: A-Z are
    lowered and every other code unit is kept.  It serves to evaluate the
    examples; the theorems hold for every [toLowerCase]. *)
Fixpoint ascii_toLowerCase (s : string) : string :=
  match s with
  | EmptyString => EmptyString
  | String a s' => String (lower_ascii a) (ascii_toLowerCase s')
  end.

Fixpoint parseInt_from (acc : N) (s : string) : N :=
  match s with
  | EmptyString => acc
  | String a s' =>
      if is_digit a then parseInt_from (10 * acc + (N_of_ascii a - 48)) s'
      else acc
  end.

(** The Number value of a natural number: the double nearest to it, with
    53 significant bits and ties going to the even significand; a number
    that rounds past the largest double gives [Infinity]. *)
Definition to_double (n : N) : number :=
  if n <? 2 ^ 53 then Finite n
  else
    let e := N.log2 n - 52 in
    let q := N.shiftr n e in
    let r := n mod 2 ^ e in
    let half := 2 ^ (e - 1) in
    let q' := if (half <? r) || ((r =? half) && N.odd q) then q + 1 else q in
    let v := q' * 2 ^ e in
    if v <? 2 ^ 1024 then Finite v else Infinity.

(** [parseInt] on a string that starts with decimal digits: the Number value
    of the integer that the leading digits denote.  (This is the result of an
    engine that converts all the digits, as Node's does; the language lets an
    engine disregard the digits after the twentieth.) *)
Definition parseInt (s : string) : number := to_double (parseInt_from 0 s).

End Str.

(** ** Data model *)

(** [ProjectDesc], lines 25-29. *)
Record ProjectDesc := mkProjectDesc {
  owner : string;
  projectNumber : number;
  isOrg : bool;
}.

(** [DefaultStatus], lines 31-34. *)
Record DefaultStatus := mkDefaultStatus {
  issues : string;
  prs : string;
}.

(** An entry of a field's [options] list. *)
Record FieldOption := mkFieldOption {
  optID : string;
  optName : string;
}.

(** Modelled from the spec: the type [ProjectFieldEntry] of [gql-types], one
    raw field entry of the schema query, "each entry optionally carrying an
    id, a name, and an ordered options list".  The code reads [name] and
    [options] only of entries whose [id] is defined. *)
Record ProjectFieldEntry := mkProjectFieldEntry {
  fieldId : option string;
  fieldName : string;
  fieldOptions : list FieldOption;
}.

(** Modelled from the spec: the type [ProjectQueryResponse] of [gql-types],
    the answer to the schema query: an [organization] branch and a [user]
    branch, either of which may be absent, each holding a [projectV2] with its
    [id], [title] and [fields.nodes]. *)
Record ProjectV2 := mkProjectV2 {
  prjID : string;
  prjTitle : string;
  prjFieldNodes : list ProjectFieldEntry;
}.

Record ProjectQueryResponse := mkProjectQueryResponse {
  organization : option ProjectV2;
  user : option ProjectV2;
}.

(** Modelled from the spec: the board item returned by [getProjectItem] of
    [helpers], "the identifier of an item's membership record on the board". *)
Record ProjectItem := mkProjectItem {
  prjItemID : string;
}.

(** The failures of the class, one constructor per [throw] of the source, named
    after the error kinds of the specification; [Uncaught] is an exception
    thrown by a remote call that the class does not catch. *)
Inductive error :=
| InvalidURL (url : string)
| BoardNotFound
| NotInitialized
| MissingStatusField
| StatusValueNotFound (wanted : string)
| AddFailed
| AddReturnedNoID
| MembershipNotFoundAfterAdd
| MembershipIDMismatch (found added : string)
| Uncaught (e : string).

(** ** URL Resolver *)

(** The capture groups [type], [owner] and [prjNumber] of a match. *)
Record Groups := mkGroups {
  g_type : string;
  g_owner : string;
  g_prjNumber : string;
}.

(** The alternation [(?<type>orgs|users)]: [orgs] is tried first. *)
Definition match_type (s : string) : option (string * string) :=
  match Str.strip_prefix "orgs" s with
  | Some r => Some ("orgs", r)
  | None =>
      match Str.strip_prefix "users" s with
      | Some r => Some ("users", r)
      | None => None
      end
  end.

(** A match of
    [/\/(?<type>orgs|users)\/(?<owner>[^/]+)\/projects\/(?<prjNumber>\d+)/]
    that starts at the first character of [s].  Both quantifiers are greedy;
    giving characters back never helps, since [owner] must be followed by a
    slash, which [[^/]] excludes, and nothing follows [prjNumber]. *)
Definition match_here (s : string) : option Groups :=
  s1 ← Str.strip_prefix "/" s;
  '(ty, s2) ← match_type s1;
  s3 ← Str.strip_prefix "/" s2;
  let '(own, s4) := Str.span Str.not_slash s3 in
  if decide (own = EmptyString) then None else
  s5 ← Str.strip_prefix "/projects/" s4;
  let '(num, _) := Str.span Str.is_digit s5 in
  if decide (num = EmptyString) then None else
  Some (mkGroups ty own num).

(** [url.match(regex)] for a regular expression without the global flag: the
    match at the leftmost position that has one. *)
Fixpoint regex_match (s : string) : option Groups :=
  match match_here s with
  | Some g => Some g
  | None =>
      match s with
      | EmptyString => None
      | String _ s' => regex_match s'
      end
  end.

(** [parseURL], lines 42-59. *)
Definition parseURL (url : string) : error + ProjectDesc :=
  match regex_match url with
  | None => inl (InvalidURL url)
  | Some g =>
      inr {| owner := g_owner g;
             projectNumber := Str.parseInt (g_prjNumber g);
             isOrg := bool_decide (g_type g = "orgs") |}
  end.

(** ** The remote API *)

(** The outcome of awaiting a remote call: the value it resolves to, or the
    exception it rejects with. *)
Inductive result (A : Type) :=
| Returned (a : A)
| Threw (e : string).
Arguments Returned {A} a.
Arguments Threw {A} e.

(** Modelled from the spec: the request channel [octokit.graphql] and the three
    board primitives of [helpers]: [getProjectItem] ("look up an item already
    on the board": the board item, or [undefined] when absent),
    [addProjectItem] ("add an item to the board": the new board-item id, or
    [undefined]) and [updateIssueStatus] ("set a field value on a board
    item").  Each acts on the remote world [W] and may throw. *)
Record Remote (W : Type) := mkRemote {
  remote_graphql :
    string -> number -> bool -> W -> W * result ProjectQueryResponse;
  remote_getProjectItem :
    string -> string -> W -> W * result (option ProjectItem);
  remote_addProjectItem :
    string -> string -> W -> W * result (option string);
  remote_updateIssueStatus :
    string -> string -> option string -> string -> W -> W * result unit;
}.
Arguments remote_graphql {W} _ _ _ _ _.
Arguments remote_getProjectItem {W} _ _ _ _.
Arguments remote_addProjectItem {W} _ _ _ _.
Arguments remote_updateIssueStatus {W} _ _ _ _ _ _.

(** The remote calls the class can issue, with their arguments. *)
Inductive call :=
| CallGraphql (owner : string) (projectNumber : number) (isOrg : bool)
| CallGetProjectItem (itemID projectID : string)
| CallAddProjectItem (itemID projectID : string)
| CallUpdateIssueStatus
    (projectID prjItemID : string) (fieldID : option string) (optionID : string).

Definition is_add (c : call) : bool :=
  match c with CallAddProjectItem _ _ => true | _ => false end.

Definition is_update (c : call) : bool :=
  match c with CallUpdateIssueStatus _ _ _ _ => true | _ => false end.

(** The two board mutations: add-to-board and set-field-value. *)
Definition is_mutation (c : call) : bool := is_add c || is_update c.

(** ** The class [Project] *)

(** [this.fields]: the object [{}] of line 71, which the class uses as a
    dictionary from field name to field entry.  It has its own properties,
    [own], and a prototype: [Object.prototype] at first ([proto] is [None]),
    or a field entry that an assignment has put in its place. *)
Record FieldsObject := mkFieldsObject {
  own : gmap string ProjectFieldEntry;
  proto : option ProjectFieldEntry;
}.

(** [{}]. *)
#[global] Instance FieldsObject_empty : Empty FieldsObject :=
  mkFieldsObject ∅ None.

(** The own property of the object under a key.  It is what [fields[key]]
    reads for a key that is a property neither of [Object.prototype] nor of a
    field entry (whose properties are [id], [name] and [options]); the class
    reads the key "Status" only, line 167. *)
#[global] Instance FieldsObject_lookup
    : Lookup string ProjectFieldEntry FieldsObject :=
  λ key o, own o !! key.

(** [Object.keys(fields)]: the names of the own properties. *)
Definition keys (o : FieldsObject) : gset string := dom (own o).

(** [fields[key] = entry], line 157.  For every key but one this defines or
    replaces the own property [key].  The key [__proto__] is an accessor
    inherited from [Object.prototype]: unless the object has an own property
    of that name, assigning an object to it replaces the prototype and
    defines no property. *)
Definition set_property (o : FieldsObject) (key : string)
    (entry : ProjectFieldEntry) : FieldsObject :=
  if decide (key = "__proto__" ∧ own o !! "__proto__" = None)
  then {| own := own o; proto := Some entry |}
  else {| own := <[key := entry]> (own o); proto := proto o |}.

(** The private members of [Project], lines 62-66.  [octokit] is the client
    made from the token; it is the channel to the world [W]. *)
Record Project := mkProject {
  octokit : string;
  desc : ProjectDesc;
  projectID : option string;
  fields : FieldsObject;
  defaultStatus : DefaultStatus;
}.

(** The result of [getStatusField], lines 180-186. *)
Record StatusValue := mkStatusValue {
  sv_id : string;
  sv_value : string;
}.

Record StatusField := mkStatusField {
  fieldID : option string;
  value : StatusValue;
}.

(** What a method runs in: the object, the remote world, and the calls issued
    so far. *)
Record State (W : Type) := mkState {
  this : Project;
  world : W;
  trace : list call;
}.
Arguments mkState {W} _ _ _.
Arguments this {W} _.
Arguments world {W} _.
Arguments trace {W} _.

(** [constructor], lines 68-73: the URL is parsed here. *)
Definition constructor (token url : string) (ds : DefaultStatus)
    : error + Project :=
  match parseURL url with
  | inl e => inl e
  | inr d =>
      inr {| octokit := token; desc := d; projectID := None;
             fields := ∅; defaultStatus := ds |}
  end.

(** [initFields], lines 152-162, as the loop over [fields] acting on
    [this.fields]. *)
Fixpoint initFields (entries : list ProjectFieldEntry)
    (this_fields : FieldsObject) : FieldsObject :=
  match entries with
  | [] => this_fields
  | entry :: rest =>
      match fieldId entry with
      | None => initFields rest this_fields
      | Some _ =>
          initFields rest (set_property this_fields (fieldName entry) entry)
      end
  end.

Section Methods.

Context {W : Type}.
Variable remote : Remote W.
Variable toLowerCase : string -> string.

(** Methods are state transformers that return a value or throw. *)
Definition M (A : Type) : Type := State W -> State W * (error + A).

Definition ret {A} (a : A) : M A := fun s => (s, inr a).

Definition throw {A} (e : error) : M A := fun s => (s, inl e).

Definition bind {A B} (m : M A) (k : A -> M B) : M B :=
  fun s =>
    match m s with
    | (s', inr a) => k a s'
    | (s', inl e) => (s', inl e)
    end.

Definition try_catch {A} (m : M A) (handler : error -> M A) : M A :=
  fun s =>
    match m s with
    | (s', inl e) => handler e s'
    | (s', inr a) => (s', inr a)
    end.

Definition get_this : M Project := fun s => (s, inr (this s)).

Definition put_this (p : Project) : M unit :=
  fun s => (mkState p (world s) (trace s), inr tt).

(** Awaiting a remote call: the call is recorded, the world moves on, and a
    rejection becomes an exception. *)
Definition await {A} (c : call) (f : W -> W * result A) : M A :=
  fun s =>
    let '(w', r) := f (world s) in
    let s' := mkState (this s) w' (trace s ++ [c]) in
    match r with
    | Returned a => (s', inr a)
    | Threw e => (s', inl (Uncaught e))
    end.

Notation "'let*' x ':=' m 'in' k" := (bind m (fun x => k))
  (at level 10, x name, m at level 100, k at level 200).

Definition getProjectItem (itemID pid : string) : M (option ProjectItem) :=
  await (CallGetProjectItem itemID pid)
        (remote_getProjectItem remote itemID pid).

Definition addProjectItem (itemID pid : string) : M (option string) :=
  await (CallAddProjectItem itemID pid)
        (remote_addProjectItem remote itemID pid).

Definition updateIssueStatus (pid itemid : string) (fid : option string)
    (oid : string) : M unit :=
  await (CallUpdateIssueStatus pid itemid fid oid)
        (remote_updateIssueStatus remote pid itemid fid oid).

(** [init], lines 79-145. *)
Definition init : M (string * string) :=
  let* self := get_this in
  let* projectRes :=
    await (CallGraphql (owner (desc self)) (projectNumber (desc self))
                       (isOrg (desc self)))
          (remote_graphql remote (owner (desc self))
                          (projectNumber (desc self)) (isOrg (desc self))) in
  let* prjv2 :=
    if isOrg (desc self) then
      match organization projectRes with
      | None => throw BoardNotFound
      | Some p => ret p
      end
    else
      match user projectRes with
      | None => throw BoardNotFound
      | Some p => ret p
      end in
  let res := (prjID prjv2, prjTitle prjv2) in
  let* self1 := get_this in
  let* _ := put_this {| octokit := octokit self1; desc := desc self1;
                        projectID := Some (fst res);
                        fields := fields self1;
                        defaultStatus := defaultStatus self1 |} in
  let* self2 := get_this in
  let* _ := put_this {| octokit := octokit self2; desc := desc self2;
                        projectID := projectID self2;
                        fields := initFields (prjFieldNodes prjv2)
                                             (fields self2);
                        defaultStatus := defaultStatus self2 |} in
  ret res.

(** The predicate handed to [find], line 174. *)
Definition status_matches (wanted : string) (entry : FieldOption) : bool :=
  Str.includes (toLowerCase (optName entry)) (toLowerCase wanted).

(** [getStatusField], lines 164-187. *)
Definition getStatusField (wanted : string) : M (option StatusField) :=
  let* self := get_this in
  match fields self !! "Status" with
  | None => throw MissingStatusField
  | Some statusField =>
      match find (status_matches wanted) (fieldOptions statusField) with
      | None => ret None
      | Some fieldValue =>
          ret (Some {| fieldID := fieldId statusField;
                       value := {| sv_id := optID fieldValue;
                                   sv_value := optName fieldValue |} |})
      end
  end.

(** [addToProject], lines 198-259. *)
Definition addToProject (itemID : string) (isPullRequest : bool) : M string :=
  let* self := get_this in
  match projectID self with
  | None => throw NotInitialized
  | Some pid =>
      let* found := getProjectItem itemID pid in
      let* item :=
        match found with
        | None =>
            let* added :=
              try_catch (addProjectItem itemID pid)
                        (fun _ => throw AddFailed) in
            match added with
            | None => throw AddReturnedNoID
            | Some newID =>
                let* again := getProjectItem itemID pid in
                match again with
                | None => throw MembershipNotFoundAfterAdd
                | Some it =>
                    if decide (prjItemID it ≠ newID)
                    then throw (MembershipIDMismatch (prjItemID it) newID)
                    else ret it
                end
            end
        | Some it => ret it
        end in
      let* self' := get_this in
      let wantedStatus :=
        if isPullRequest then prs (defaultStatus self')
        else issues (defaultStatus self') in
      let* newStatus := getStatusField wantedStatus in
      match newStatus with
      | None => throw (StatusValueNotFound wantedStatus)
      | Some st =>
          let* _ := updateIssueStatus pid (prjItemID item) (fieldID st)
                                      (sv_id (value st)) in
          ret (prjItemID item)
      end
  end.

(** The lookup and add steps of [addToProject], lines 208-235, on their own:
    what [item] is bound to when the status steps begin. *)
Definition ensureMember (itemID pid : string) : M ProjectItem :=
  let* found := getProjectItem itemID pid in
  match found with
  | None =>
      let* added :=
        try_catch (addProjectItem itemID pid)
                  (fun _ => throw AddFailed) in
      match added with
      | None => throw AddReturnedNoID
      | Some newID =>
          let* again := getProjectItem itemID pid in
          match again with
          | None => throw MembershipNotFoundAfterAdd
          | Some it =>
              if decide (prjItemID it ≠ newID)
              then throw (MembershipIDMismatch (prjItemID it) newID)
              else ret it
          end
      end
  | Some it => ret it
  end.

(** The status steps of [addToProject], lines 237-258, for a given [item]. *)
Definition applyStatus (pid : string) (isPullRequest : bool)
    (item : ProjectItem) : M string :=
  let* self' := get_this in
  let wantedStatus :=
    if isPullRequest then prs (defaultStatus self')
    else issues (defaultStatus self') in
  let* newStatus := getStatusField wantedStatus in
  match newStatus with
  | None => throw (StatusValueNotFound wantedStatus)
  | Some st =>
      let* _ := updateIssueStatus pid (prjItemID item) (fieldID st)
                                  (sv_id (value st)) in
      ret (prjItemID item)
  end.

End Methods.

(** ** Two remotes to run the class against *)

(** A well-behaved board.  It keeps the membership records (item id to
    board-item id) and the field values set on board items; adding an item
    that is absent creates its record, lookups read the records, and no call
    fails. *)
Module Board.

Record t := mk {
  schema : ProjectQueryResponse;
  members : gmap string string;
  values : gmap string (option string * string);
}.

Definition graphql (_ : string) (_ : number) (_ : bool) (w : t)
    : t * result ProjectQueryResponse :=
  (w, Returned (schema w)).

Definition lookup (itemID _ : string) (w : t)
    : t * result (option ProjectItem) :=
  (w, Returned (mkProjectItem <$> members w !! itemID)).

Definition add (itemID _ : string) (w : t) : t * result (option string) :=
  match members w !! itemID with
  | Some id => (w, Returned (Some id))
  | None =>
      let id := "PVTI_" +:+ itemID in
      (mk (schema w) (<[itemID := id]> (members w)) (values w),
       Returned (Some id))
  end.

Definition update (_ itemid : string) (fid : option string) (oid : string)
    (w : t) : t * result unit :=
  (mk (schema w) (members w) (<[itemid := (fid, oid)]> (values w)),
   Returned tt).

Definition remote : Remote t := mkRemote t graphql lookup add update.

End Board.

(** A scripted remote: the world is the list of answers still to be given,
    and each call takes the next one.  It plays any behaviour of the remote
    side, including the inconsistent ones. *)
Module Script.

Inductive answer :=
| Schema (r : result ProjectQueryResponse)
| Item (r : result (option ProjectItem))
| Added (r : result (option string))
| Updated (r : result unit).

Definition t := list answer.

Definition graphql (_ : string) (_ : number) (_ : bool) (w : t)
    : t * result ProjectQueryResponse :=
  match w with
  | Schema r :: w' => (w', r)
  | _ => (w, Threw "unexpected call")
  end.

Definition lookup (_ _ : string) (w : t) : t * result (option ProjectItem) :=
  match w with
  | Item r :: w' => (w', r)
  | _ => (w, Threw "unexpected call")
  end.

Definition add (_ _ : string) (w : t) : t * result (option string) :=
  match w with
  | Added r :: w' => (w', r)
  | _ => (w, Threw "unexpected call")
  end.

Definition update (_ _ : string) (_ : option string) (_ : string) (w : t)
    : t * result unit :=
  match w with
  | Updated r :: w' => (w', r)
  | _ => (w, Threw "unexpected call")
  end.

Definition remote : Remote t := mkRemote t graphql lookup add update.

End Script.

(** What "no intervening external state change" asks of the remote side
    between and during two calls of [addToProject]: a lookup changes nothing,
    setting a field value does not change what lookups answer, and a
    set-field-value call that succeeded succeeds again when repeated. *)
Record Stable {W : Type} (remote : Remote W) : Prop := mkStable {
  lookup_reads : forall i p w, (remote_getProjectItem remote i p w).1 = w;
  update_keeps_members : forall p it f o i p' w,
    (remote_getProjectItem remote i p'
       (remote_updateIssueStatus remote p it f o w).1).2
    = (remote_getProjectItem remote i p' w).2;
  update_repeats : forall p it f o w,
    (remote_updateIssueStatus remote p it f o w).2 = Returned tt ->
    (remote_updateIssueStatus remote p it f o
       (remote_updateIssueStatus remote p it f o w).1).2 = Returned tt;
}.

Definition count_adds (cs : list call) : nat := length (filter is_add cs).

(** ** The URL pattern, as the specification words it *)

(** [url] reads [pre/(orgs|users)/<owner>/projects/<number>rest]: [ty] is one
    of the two keywords, [own] is a non-empty run without a slash and [num] a
    non-empty run of digits. *)
Definition url_pattern (url pre ty own num rest : string) : Prop :=
  url = pre +:+ "/" +:+ ty +:+ "/" +:+ own +:+ "/projects/" +:+ num +:+ rest
  ∧ (ty = "orgs" ∨ ty = "users")
  ∧ own ≠ EmptyString ∧ Str.all Str.not_slash own = true
  ∧ num ≠ EmptyString ∧ Str.all Str.is_digit num = true.

(** The occurrence a matcher reports: the leftmost one, with all the digits
    that follow taken into the number. *)
Definition url_first_match (url pre ty own num rest : string) : Prop :=
  url_pattern url pre ty own num rest
  ∧ Str.head_satisfies Str.is_digit rest = false
  ∧ ∀ pre' ty' own' num' rest',
      url_pattern url pre' ty' own' num' rest' →
      (String.length pre <= String.length pre')%nat.

(** The natural number that a string of decimal digits denotes: each digit
    counts for its value times the power of ten of its place. *)
Fixpoint decimal_value (s : string) : N :=
  match s with
  | EmptyString => 0
  | String a s' =>
      (N_of_ascii a - 48) * 10 ^ N.of_nat (String.length s')
      + decimal_value s'
  end.

(** ** The Status Resolver, as the specification words it *)

(** [name] contains [label] as a case-insensitive substring: once both are
    lower-cased, [label] occurs in [name]. *)
Definition contains_ci (toLowerCase : string → string) (name label : string)
    : Prop :=
  ∃ a b, toLowerCase name = a +:+ toLowerCase label +:+ b.

(** The reference to option [o] of the field [statusField]. *)
Definition status_ref (statusField : ProjectFieldEntry) (o : FieldOption)
    : StatusField :=
  {| fieldID := fieldId statusField;
     value := {| sv_id := optID o; sv_value := optName o |} |}.

(** The label [addToProject] asks for, line 237. *)
Definition wanted_status (p : Project) (isPullRequest : bool) : string :=
  if isPullRequest then prs (defaultStatus p) else issues (defaultStatus p).

(** ** The Field Index, as the specification words it *)

(** One step of the fold into a map keyed by name: an entry without an id is
    skipped, any other is stored under its name. *)
Definition index_step (acc : gmap string ProjectFieldEntry)
    (entry : ProjectFieldEntry) : gmap string ProjectFieldEntry :=
  match fieldId entry with
  | None => acc
  | Some _ => <[fieldName entry := entry]> acc
  end.

(** The names of the entries that have an id. *)
Definition kept_names (entries : list ProjectFieldEntry) : gset string :=
  list_to_set (fieldName <$> filter (λ e, is_Some (fieldId e)) entries).

(** The last entry of the sequence that has an id and the given name. *)
Definition last_kept (n : string) (entries : list ProjectFieldEntry)
    : option ProjectFieldEntry :=
  last (filter (λ e, is_Some (fieldId e) ∧ fieldName e = n) entries).

(** ** Fixtures *)

Definition ds0 : DefaultStatus := mkDefaultStatus "Backlog" "In Review".

Definition status_entry (opts : list FieldOption) : ProjectFieldEntry :=
  mkProjectFieldEntry (Some "F_status") "Status" opts.

Definition opts_backlog : list FieldOption :=
  [mkFieldOption "o1" "📋 Backlog"; mkFieldOption "o2" "Done"].

Definition opts_done : list FieldOption :=
  [mkFieldOption "a" "Todo"; mkFieldOption "b" "In Progress";
   mkFieldOption "c" "✅ Done"].

Definition desc0 : ProjectDesc := mkProjectDesc "acme" (Finite 7) true.

(** An initialised object whose index holds the given entries. *)
Definition project_with (entries : list ProjectFieldEntry) : Project :=
  mkProject "token" desc0 (Some "PVT_1") (initFields entries ∅) ds0.

Definition empty_board : Board.t :=
  Board.mk (mkProjectQueryResponse None None) ∅ ∅.

Definition board_with (itemID id : string) : Board.t :=
  Board.mk (mkProjectQueryResponse None None) {[ itemID := id ]} ∅.

(** What the constructor returns for the board [orgs/acme/projects/7]. *)
Definition project_new : Project := mkProject "token" desc0 None ∅ ds0.

Definition st_new : State Board.t := mkState project_new empty_board [].

(** No "Status" field in the index, the item not yet on the board. *)
Definition st_no_status : State Board.t :=
  mkState (project_with []) empty_board [].

(** A "Status" field, the item not yet on the board. *)
Definition st_absent : State Board.t :=
  mkState (project_with [status_entry opts_backlog]) empty_board [].

(** A "Status" field, the item already on the board. *)
Definition st_member : State Board.t :=
  mkState (project_with [status_entry opts_backlog])
          (board_with "I_1" "PVTI_9") [].

Definition st_done : State Board.t :=
  mkState (project_with [status_entry opts_done]) empty_board [].

(** A remote whose second lookup disagrees with its add. *)
Definition st_mismatch : State Script.t :=
  mkState (project_with [status_entry opts_backlog])
          [Script.Item (Returned None);
           Script.Added (Returned (Some "A"));
           Script.Item (Returned (Some (mkProjectItem "B")))]
          [].

(** The reading of "initialize() fails with InvalidURL when the board URL
    supplied at construction does not match": an object was constructed from
    [url] and its [init] fails with [InvalidURL]. *)
Definition init_fails_with_InvalidURL (token url : string)
    (ds : DefaultStatus) : Prop :=
  ∃ p s', constructor token url ds = inr p
          ∧ init Board.remote (mkState p empty_board [])
            = (s', inl (InvalidURL url)).


(** ** Further notions used by the properties below *)

(** A board URL in its usual form: a scheme, a host, then
    [/(orgs|users)/<owner>/projects/<number>] and whatever follows. *)
Definition board_url (scheme host kw own num rest : string) : string :=
  scheme +:+ "://" +:+ host +:+ "/" +:+ kw +:+ "/" +:+ own
         +:+ "/projects/" +:+ num +:+ rest.

(** The invariant of [this.fields]: every entry held has an id and is filed
    under its own name. *)
Definition index_wf (fs : FieldsObject) : Prop :=
  ∀ n e, fs !! n = Some e → is_Some (fieldId e) ∧ fieldName e = n.

(** The item and the board a call names: a lookup and an add name both, a
    set-field-value call names the board (its board item is tied to the item
    by [board_item_found]); the schema query names neither. *)
Definition call_targets (itemID pid : string) (c : call) : bool :=
  match c with
  | CallGraphql _ _ _ => false
  | CallGetProjectItem i p => bool_decide (i = itemID ∧ p = pid)
  | CallAddProjectItem i p => bool_decide (i = itemID ∧ p = pid)
  | CallUpdateIssueStatus p _ _ _ => bool_decide (p = pid)
  end.

(** The board item that the remote gives for an item: the one the lookup
    finds or, when the lookup finds none, the one the add call creates and
    the second lookup returns under the same id. *)
Definition board_item_found {W : Type} (remote : Remote W)
    (itemID pid : string) (w : W) (boardItemID : string) : Prop :=
  (∃ w1 it,
      remote_getProjectItem remote itemID pid w = (w1, Returned (Some it))
      ∧ prjItemID it = boardItemID)
  ∨ (∃ w1 w2 w3 it,
        remote_getProjectItem remote itemID pid w = (w1, Returned None)
        ∧ remote_addProjectItem remote itemID pid w1
          = (w2, Returned (Some boardItemID))
        ∧ remote_getProjectItem remote itemID pid w2
          = (w3, Returned (Some it))
        ∧ prjItemID it = boardItemID).

(** The branch of the schema answer that [init] reads, lines 130-134. *)
Definition expected_branch (d : ProjectDesc) (res : ProjectQueryResponse)
    : option ProjectV2 :=
  if isOrg d then organization res else user res.

(** The object after a successful [init] that read [prjv2], lines 141-142. *)
Definition initialised (p : Project) (prjv2 : ProjectV2) : Project :=
  {| octokit := octokit p; desc := desc p;
     projectID := Some (prjID prjv2);
     fields := initFields (prjFieldNodes prjv2) (fields p);
     defaultStatus := defaultStatus p |}.

(** The schema query [init] issues for an object. *)
Definition schema_query (p : Project) : call :=
  CallGraphql (owner (desc p)) (projectNumber (desc p)) (isOrg (desc p)).

(** ** Further fixtures *)

(** An initialised object with a "Status" field, facing a scripted remote. *)
Definition script_state (answers : Script.t) : State Script.t :=
  mkState (project_with [status_entry opts_backlog]) answers [].

(** A single-select field that its board names [__proto__]. *)
Definition proto_entry : ProjectFieldEntry :=
  mkProjectFieldEntry (Some "F_proto") "__proto__" [].

Definition prio_entry : ProjectFieldEntry :=
  mkProjectFieldEntry (Some "F_prio") "Priority" [].

(** A schema answer: a single-select field and an entry of a kind the query
    does not select, which comes back without an id. *)
Definition prj0 : ProjectV2 :=
  mkProjectV2 "PVT_1" "Roadmap"
              [status_entry opts_backlog; mkProjectFieldEntry None "" []].

Definition prj1 : ProjectV2 := mkProjectV2 "PVT_2" "Roadmap 2" [prio_entry].

Definition res_org (p : ProjectV2) : ProjectQueryResponse :=
  mkProjectQueryResponse (Some p) None.

Definition item9 : ProjectItem := mkProjectItem "PVTI_9".

(** The object after [init] has read [prj0], facing a remote that will find
    the item on the board and accept the status. *)
Definition st_first_item : State Script.t :=
  mkState (initialised project_new prj0)
          [Script.Item (Returned (Some item9)); Script.Updated (Returned tt)]
          [schema_query project_new].

Definition two_fields : list ProjectFieldEntry :=
  [status_entry opts_done; prio_entry].

Definition opt_backlog : FieldOption := mkFieldOption "o1" "📋 Backlog".


(** * Properties *)

(** ** Strings *)

#[local] Arguments String.append !_ _ /.

Section StringFacts.

Lemma append_assoc (a b c : string) : (a +:+ b) +:+ c = a +:+ (b +:+ c).
Proof. induction a as [|x a IH]; simpl; [done | by rewrite IH]. Qed.

Lemma append_empty_r (a : string) : a +:+ EmptyString = a.
Proof. induction a as [|x a IH]; simpl; [done | by rewrite IH]. Qed.

(** Two splits of one string at the same position are the same split. *)
Lemma append_split_eq (a a' b b' : string) :
  a +:+ b = a' +:+ b' → String.length a = String.length a' →
  a = a' ∧ b = b'.
Proof.
  revert a'. induction a as [|x a IH]; intros [|x' a'] He Hl;
    simpl in *; try discriminate; [done|].
  injection He as -> He. destruct (IH a' He) as [-> ->]; [lia | done].
Qed.

Lemma strip_prefix_spec (lit s r : string) :
  Str.strip_prefix lit s = Some r ↔ s = lit +:+ r.
Proof.
  revert s. induction lit as [|a lit IH]; intros s; simpl.
  - split; [by intros [= ->] | by intros ->].
  - destruct s as [|b s]; [done|].
    destruct (decide (a = b)) as [->|Hne].
    + rewrite IH. split; [by intros -> | by intros [= ->]].
    + split; [done | intros [= ? ?]; congruence].
Qed.

Lemma strip_prefix_app (lit r : string) :
  Str.strip_prefix lit (lit +:+ r) = Some r.
Proof. by apply strip_prefix_spec. Qed.

Lemma startsWith_spec (s lit : string) :
  Str.startsWith s lit = true ↔ ∃ r, s = lit +:+ r.
Proof.
  unfold Str.startsWith.
  destruct (Str.strip_prefix lit s) as [r|] eqn:E.
  - apply strip_prefix_spec in E. split; [by exists r | done].
  - split; [done | intros [r Hr]].
    apply strip_prefix_spec in Hr. congruence.
Qed.

(** [includes] is the substring test. *)
Lemma includes_spec (s t : string) :
  Str.includes s t = true ↔ ∃ a b, s = a +:+ t +:+ b.
Proof.
  induction s as [|x s IH]; simpl.
  - destruct (Str.startsWith EmptyString t) eqn:E.
    + apply startsWith_spec in E as [r Hr]. split; [|done].
      intros _. by exists EmptyString, r.
    + split; [done|]. intros ([|y a] & b & H); [|done].
      simpl in H. assert (Str.startsWith EmptyString t = true) as E'
        by (apply startsWith_spec; by exists b).
      congruence.
  - destruct (Str.startsWith (String x s) t) eqn:E.
    + apply startsWith_spec in E as [r Hr]. split; [|done].
      intros _. by exists EmptyString, r.
    + rewrite IH. split.
      * intros (a & b & ->). by exists (String x a), b.
      * intros ([|y a] & b & H); simpl in H.
        -- assert (Str.startsWith (String x s) t = true) as E'
             by (apply startsWith_spec; by exists b).
           congruence.
        -- injection H as -> ->. by exists a, b.
Qed.

Lemma includes_empty (s : string) : Str.includes s EmptyString = true.
Proof. destruct s; reflexivity. Qed.

Lemma span_spec (p : ascii → bool) (s r t : string) :
  Str.span p s = (r, t) ↔
  s = r +:+ t ∧ Str.all p r = true ∧ Str.head_satisfies p t = false.
Proof.
  revert r. induction s as [|a s IH]; intros r; simpl.
  - split.
    + by intros [= <- <-].
    + intros (H & _ & _). destruct r; [|done]. simpl in H. by subst.
  - destruct (p a) eqn:Ea.
    + destruct (Str.span p s) as [r0 t0] eqn:E0.
      split.
      * intros [= <- <-]. destruct (proj1 (IH r0) eq_refl) as (-> & ? & ?).
        simpl. rewrite Ea. done.
      * intros (H & Hall & Hhd). destruct r as [|b r]; simpl in *.
        -- subst t. simpl in Hhd. congruence.
        -- injection H as <- ->. apply andb_true_iff in Hall as [_ Hall].
           assert ((r0, t0) = (r, t)) as [= -> ->] by by apply IH.
           done.
    + split.
      * intros [= <- <-]. simpl. by rewrite Ea.
      * intros (H & Hall & Hhd). destruct r as [|b r]; simpl in *.
        -- by subst.
        -- injection H as <- ->. rewrite Ea in Hall. done.
Qed.

Lemma all_app (p : ascii → bool) (a b : string) :
  Str.all p (a +:+ b) = Str.all p a && Str.all p b.
Proof.
  induction a as [|x a IH]; simpl; [done|]. rewrite IH.
  by rewrite andb_assoc.
Qed.

(** The greedy run takes at least every prefix made of matching
    characters. *)
Lemma span_extends (p : ascii → bool) (r t : string) :
  Str.all p r = true →
  ∃ m t', Str.span p (r +:+ t) = (r +:+ m, t') ∧ t = m +:+ t'.
Proof.
  induction r as [|a r IH]; simpl.
  - intros _. destruct (Str.span p t) as [m t'] eqn:E.
    exists m, t'. split; [done|]. by apply span_spec in E as (-> & _).
  - intros [-> Hr]%andb_true_iff. destruct (IH Hr) as (m & t' & -> & ->).
    by exists m, t'.
Qed.

End StringFacts.

(** ** URL Resolver *)

#[local] Arguments Str.strip_prefix : simpl never.

Section URLResolver.

Lemma match_type_spec (s ty r : string) :
  match_type s = Some (ty, r) ↔ (ty = "orgs" ∨ ty = "users") ∧ s = ty +:+ r.
Proof.
  unfold match_type. split.
  - destruct (Str.strip_prefix "orgs" s) as [r1|] eqn:E1.
    { intros [= <- <-]. apply strip_prefix_spec in E1. auto. }
    destruct (Str.strip_prefix "users" s) as [r2|] eqn:E2; [|done].
    intros [= <- <-]. apply strip_prefix_spec in E2. auto.
  - intros [[-> | ->] ->]; [by rewrite strip_prefix_app|].
    by rewrite (strip_prefix_app "users").
Qed.

Lemma head_slash_not_class (t : string) :
  Str.head_satisfies Str.not_slash ("/projects/" +:+ t) = false.
Proof. reflexivity. Qed.

(** A match found at the start of [s] is an occurrence of the pattern there,
    with a maximal number. *)
Lemma match_here_sound (s : string) (g : Groups) :
  match_here s = Some g →
  ∃ rest, url_pattern s EmptyString (g_type g) (g_owner g) (g_prjNumber g) rest
          ∧ Str.head_satisfies Str.is_digit rest = false.
Proof.
  unfold match_here. intros H.
  destruct (Str.strip_prefix "/" s) as [s1|] eqn:E1; simpl in H; [|done].
  destruct (match_type s1) as [[ty s2]|] eqn:E2; simpl in H; [|done].
  destruct (Str.strip_prefix "/" s2) as [s3|] eqn:E3; simpl in H; [|done].
  destruct (Str.span Str.not_slash s3) as [own s4] eqn:E4.
  destruct (decide (own = EmptyString)) as [|Hown]; [done|].
  destruct (Str.strip_prefix "/projects/" s4) as [s5|] eqn:E5;
    simpl in H; [|done].
  destruct (Str.span Str.is_digit s5) as [num rest] eqn:E6.
  destruct (decide (num = EmptyString)) as [|Hnum]; [done|].
  injection H as <-. simpl.
  apply strip_prefix_spec in E1, E3, E5.
  apply match_type_spec in E2 as [Hty E2].
  apply span_spec in E4 as (E4 & Hall4 & _).
  apply span_spec in E6 as (E6 & Hall6 & Hhd).
  exists rest. split; [|done].
  unfold url_pattern. subst. done.
Qed.

(** Where the pattern occurs at the start of [s], the matcher succeeds: with
    the same keyword and owner, and the number extended by the digits that
    follow it. *)
Lemma match_here_complete (s ty own num rest : string) :
  url_pattern s EmptyString ty own num rest →
  ∃ m rest', match_here s = Some (mkGroups ty own (num +:+ m))
             ∧ rest = m +:+ rest'
             ∧ Str.head_satisfies Str.is_digit rest' = false.
Proof.
  intros (-> & Hty & Hown & Hall & Hnum & Hdig).
  destruct (span_extends Str.is_digit num rest Hdig) as (m & rest' & E6 & ->).
  exists m, rest'. split; [|split; [done|]].
  - unfold match_here, mbind, option_bind.
    change (EmptyString +:+ "/" +:+ ?x) with ("/" +:+ x).
    rewrite strip_prefix_app.
    rewrite (proj2 (match_type_spec _ ty _) (conj Hty eq_refl)).
    rewrite strip_prefix_app.
    rewrite (proj2 (span_spec Str.not_slash _ own _)
                   (conj eq_refl (conj Hall (head_slash_not_class _)))).
    destruct (decide (own = EmptyString)); [done|].
    rewrite strip_prefix_app, E6.
    destruct (decide (num +:+ m = EmptyString)) as [He|]; [|done].
    destruct num; [done | discriminate He].
  - by apply span_spec in E6 as (_ & _ & ?).
Qed.

Lemma regex_match_cons (a : ascii) (s : string) :
  regex_match (String a s)
  = match match_here (String a s) with
    | Some g => Some g
    | None => regex_match s
    end.
Proof. reflexivity. Qed.

(** [regex_match] reports the match at the leftmost position that has one. *)
Lemma regex_match_Some (s : string) (g : Groups) :
  regex_match s = Some g →
  ∃ pre s', s = pre +:+ s' ∧ match_here s' = Some g
            ∧ ∀ p' s'', s = p' +:+ s'' →
                (String.length p' < String.length pre)%nat →
                match_here s'' = None.
Proof.
  induction s as [|a s IH].
  - intros H. by vm_compute in H.
  - intros H. rewrite regex_match_cons in H. revert H.
    destruct (match_here (String a s)) as [g'|] eqn:E.
    + intros [= ->]. exists EmptyString, (String a s).
      split; [done|]. split; [done|]. simpl. intros; lia.
    + intros (pre & s' & -> & Hm & Hmin)%IH.
      exists (String a pre), s'. split; [done|]. split; [done|].
      intros [|b p'] s'' He Hl; simpl in *.
      * by subst s''.
      * injection He as -> He. apply (Hmin p' s'' He). lia.
Qed.

Lemma regex_match_None (s : string) :
  regex_match s = None →
  ∀ pre s', s = pre +:+ s' → match_here s' = None.
Proof.
  induction s as [|a s IH].
  - intros _ [|b pre] s' He; [|done]. simpl in He. by subst s'.
  - intros H. rewrite regex_match_cons in H. revert H.
    destruct (match_here (String a s)) as [g'|] eqn:E; [done|].
    intros Hn [|b pre] s' He; simpl in He.
    + by subst s'.
    + injection He as -> He. by apply (IH Hn pre).
Qed.

(** An occurrence anywhere in [url] is an occurrence at the start of the
    suffix it begins at. *)
Lemma url_pattern_suffix (pre ty own num rest : string) (url : string) :
  url_pattern url pre ty own num rest ↔
  ∃ s', url = pre +:+ s' ∧ url_pattern s' EmptyString ty own num rest.
Proof.
  unfold url_pattern. split.
  - intros (-> & H). eexists. split; [done|]. split; [|done]. done.
  - intros (s' & -> & -> & H). split; [|done]. done.
Qed.

Lemma regex_match_first (url : string) (g : Groups) :
  regex_match url = Some g ↔
  ∃ pre rest,
    url_first_match url pre (g_type g) (g_owner g) (g_prjNumber g) rest.
Proof.
  split.
  - intros (pre & s' & -> & Hm & Hmin)%regex_match_Some.
    destruct (match_here_sound _ _ Hm) as (rest & Hpat & Hhd).
    exists pre, rest. split; [|split; [done|]].
    + apply url_pattern_suffix. eauto.
    + intros pre' ty' own' num' rest' (s'' & He & Hp)%url_pattern_suffix.
      destruct (match_here_complete _ _ _ _ _ Hp) as (m & r' & Hs & _).
      destruct (decide (String.length pre' < String.length pre)%nat)
        as [Hlt|]; [|lia].
      rewrite (Hmin pre' s'' He Hlt) in Hs. done.
  - intros (pre & rest & Hpat & Hhd & Hleft).
    apply url_pattern_suffix in Hpat as (s' & -> & Hp).
    destruct (match_here_complete _ _ _ _ _ Hp) as (m & r' & Hs & -> & Hr').
    assert (m = EmptyString) as ->.
    { destruct m as [|c m]; [done|]. exfalso.
      destruct (match_here_sound _ _ Hs) as (r'' & Hp'' & _).
      destruct Hp'' as (_ & _ & _ & _ & _ & Hd). simpl in Hd.
      rewrite all_app in Hd. simpl in *.
      apply andb_true_iff in Hd as [_ [Hc _]%andb_true_iff]. congruence. }
    rewrite append_empty_r in Hs. destruct g as [ty own num]; simpl in *.
    destruct (regex_match (pre +:+ s')) as [g0|] eqn:E.
    + apply regex_match_Some in E as (pre0 & s0 & He & Hm0 & Hmin).
      destruct (match_here_sound _ _ Hm0) as (rest0 & Hp0 & _).
      assert (url_pattern (pre +:+ s') pre0 (g_type g0) (g_owner g0)
                          (g_prjNumber g0) rest0) as Hp0'
        by (apply url_pattern_suffix; eauto).
      pose proof (Hleft _ _ _ _ _ Hp0') as Hle.
      destruct (decide (String.length pre < String.length pre0)%nat)
        as [Hlt|Hge].
      * rewrite (Hmin pre s' eq_refl Hlt) in Hs. done.
      * destruct (append_split_eq _ _ _ _ He) as [-> ->]; [lia|].
        congruence.
    + rewrite (regex_match_None _ E pre s' eq_refl) in Hs. done.
Qed.

Lemma regex_match_none_iff (url : string) :
  regex_match url = None ↔
  ¬ ∃ pre ty own num rest, url_pattern url pre ty own num rest.
Proof.
  split.
  - intros Hn (pre & ty & own & num & rest & Hp).
    apply url_pattern_suffix in Hp as (s' & He & Hp).
    destruct (match_here_complete _ _ _ _ _ Hp) as (m & r' & Hs & _).
    rewrite (regex_match_None _ Hn pre s' He) in Hs. done.
  - intros Hno. destruct (regex_match url) as [g|] eqn:E; [|done].
    exfalso. apply Hno. apply regex_match_first in E as (pre & rest & Hp & _).
    eauto 10.
Qed.

End URLResolver.

(** ** Numbers *)

Section Numbers.

(** Reading the digits from the left gives the number they denote. *)
Lemma parseInt_from_value (acc : N) (s : string) :
  Str.all Str.is_digit s = true →
  Str.parseInt_from acc s
  = acc * 10 ^ N.of_nat (String.length s) + decimal_value s.
Proof.
  revert acc. induction s as [|a s IH]; intros acc H.
  - simpl. lia.
  - simpl in H. apply andb_true_iff in H as [Ha Hs].
    cbn [Str.parseInt_from decimal_value String.length]. rewrite Ha, IH by done.
    rewrite Nat2N.inj_succ, N.pow_succ_r'.
    set (p := 10 ^ N.of_nat (String.length s)).
    set (d := N_of_ascii a - 48). nia.
Qed.

(** Up to 2^53 every natural number is a double. *)
Lemma to_double_exact (n : N) : n <= 2 ^ 53 → Str.to_double n = Finite n.
Proof.
  intros Hn. unfold Str.to_double.
  destruct (n <? 2 ^ 53) eqn:E; [done|].
  apply N.ltb_ge in E. assert (n = 2 ^ 53) as -> by lia. reflexivity.
Qed.

(** A finite result is within half a unit in the last place of the number,
    and has at most 53 significant bits. *)
Lemma to_double_near (n r : N) :
  Str.to_double n = Finite r →
  ∃ m e, r = m * 2 ^ e ∧ m <= 2 ^ 53
         ∧ 2 * r <= 2 * n + 2 ^ e ∧ 2 * n <= 2 * r + 2 ^ e.
Proof.
  unfold Str.to_double. destruct (n <? 2 ^ 53) eqn:E.
  - intros [= <-]. apply N.ltb_lt in E. exists n, 0.
    rewrite N.pow_0_r. lia.
  - apply N.ltb_ge in E. cbv zeta.
    set (e := N.log2 n - 52). set (q := N.shiftr n e).
    set (r0 := n mod 2 ^ e). set (half := 2 ^ (e - 1)).
    assert (52 < N.log2 n) as Hlog.
    { assert (53 <= N.log2 n); [|lia]. apply N.log2_le_pow2; lia. }
    assert (0 < e) as He by (unfold e; lia).
    assert (2 ^ e = 2 * half) as Hpow.
    { unfold half. rewrite <- N.pow_succ_r'. f_equal. lia. }
    assert (n = q * 2 ^ e + r0 ∧ r0 < 2 ^ e) as [Hn Hr].
    { unfold q, r0. rewrite N.shiftr_div_pow2. split.
      - rewrite N.mul_comm. apply N.div_mod. lia.
      - apply N.mod_lt. lia. }
    assert (q < 2 ^ 53) as Hq.
    { unfold q. rewrite N.shiftr_div_pow2.
      apply N.Div0.div_lt_upper_bound.
      rewrite <- N.pow_add_r.
      replace (e + 53) with (N.succ (N.log2 n)) by (unfold e; lia).
      apply N.log2_spec. lia. }
    destruct ((half <? r0) || ((r0 =? half) && N.odd q)) eqn:Eup.
    + destruct (_ <? 2 ^ 1024); [|done]. intros [= <-].
      exists (q + 1), e. split; [done|]. split; [lia|].
      apply orb_true_iff in Eup as [Hlt|[Heq _]%andb_true_iff].
      * apply N.ltb_lt in Hlt. nia.
      * apply N.eqb_eq in Heq. nia.
    + destruct (_ <? 2 ^ 1024); [|done]. intros [= <-].
      exists q, e. split; [done|]. split; [lia|].
      apply orb_false_iff in Eup as [Hlt _]. apply N.ltb_ge in Hlt. nia.
Qed.

(** [parseInt] of a digit string is the number it denotes, made a double. *)
Lemma parseInt_digits (s : string) :
  Str.all Str.is_digit s = true →
  Str.parseInt s = Str.to_double (decimal_value s).
Proof.
  intros H. unfold Str.parseInt. by rewrite parseInt_from_value.
Qed.

Lemma parseInt_exact (s : string) :
  Str.all Str.is_digit s = true →
  decimal_value s <= 2 ^ 53 →
  Str.parseInt s = Finite (decimal_value s).
Proof.
  intros H Hb. rewrite parseInt_digits by done. by apply to_double_exact.
Qed.

End Numbers.

Section ParseURL.

Variable url : string.

Lemma parseURL_inr_iff (d : ProjectDesc) :
  parseURL url = inr d ↔
  ∃ pre ty own num rest,
    url_first_match url pre ty own num rest
    ∧ owner d = own ∧ projectNumber d = Str.parseInt num
    ∧ (isOrg d = true ↔ ty = "orgs").
Proof.
  unfold parseURL. split.
  - destruct (regex_match url) as [g|] eqn:E; [|done].
    intros [= <-]. apply regex_match_first in E as (pre & rest & Hf).
    exists pre, (g_type g), (g_owner g), (g_prjNumber g), rest.
    simpl. split; [done|]. split; [done|]. split; [done|].
    apply bool_decide_eq_true.
  - intros (pre & ty & own & num & rest & Hf & Ho & Hn & Hi).
    assert (regex_match url = Some (mkGroups ty own num)) as ->
      by (apply regex_match_first; simpl; eauto).
    simpl. destruct d as [o n i]; simpl in *. subst o n. f_equal. f_equal.
    destruct i.
    + apply bool_decide_eq_true. by apply Hi.
    + apply bool_decide_eq_false. intros Hty. by apply Hi in Hty.
Qed.

Lemma parseURL_succeeds_iff :
  (∃ pre ty own num rest, url_pattern url pre ty own num rest) ↔
  ∃ d, parseURL url = inr d.
Proof.
  unfold parseURL. split.
  - intros Hp. destruct (regex_match url) as [g|] eqn:E; [eauto|].
    by apply regex_match_none_iff in E.
  - intros [d Hd]. destruct (regex_match url) as [g|] eqn:E; [|done].
    apply regex_match_first in E as (pre & rest & Hp & _). eauto 10.
Qed.

Lemma parseURL_invalid_iff :
  (¬ ∃ pre ty own num rest, url_pattern url pre ty own num rest) ↔
  parseURL url = inl (InvalidURL url).
Proof.
  unfold parseURL. rewrite <- regex_match_none_iff.
  destruct (regex_match url); split; done.
Qed.

Lemma parseURL_inl_iff (e : error) :
  parseURL url = inl e ↔ e = InvalidURL url ∧ regex_match url = None.
Proof.
  unfold parseURL. destruct (regex_match url); split; try done.
  - by intros [_ ?].
  - by intros [= <-].
  - by intros [-> _].
Qed.

End ParseURL.

(** C5.  [parseURL] succeeds exactly on the strings in which the pattern
    [/(orgs|users)/<owner>/projects/<number>] occurs.  The descriptor it
    returns is read off the leftmost occurrence: [owner] is its owner,
    [projectNumber] is [parseInt] of its number, and [isOrg] is true if and
    only if its keyword is [orgs].  [projectNumber] is the double nearest to
    the number that the digits denote, hence that number itself when it is at
    most 2^53.  On every string in which the pattern occurs nowhere
    [parseURL] fails with [InvalidURL], and it fails in no other way. *)
Theorem parseURL_resolves (url : string) :
  (∀ d, parseURL url = inr d ↔
        ∃ pre ty own num rest,
          url_first_match url pre ty own num rest
          ∧ owner d = own ∧ projectNumber d = Str.parseInt num
          ∧ (isOrg d = true ↔ ty = "orgs"))
  ∧ (∀ d, parseURL url = inr d →
          ∃ pre ty own num rest,
            url_first_match url pre ty own num rest
            ∧ projectNumber d = Str.to_double (decimal_value num)
            ∧ (decimal_value num <= 2 ^ 53 →
               projectNumber d = Finite (decimal_value num)))
  ∧ ((∃ pre ty own num rest, url_pattern url pre ty own num rest) ↔
     ∃ d, parseURL url = inr d)
  ∧ ((¬ ∃ pre ty own num rest, url_pattern url pre ty own num rest) ↔
     parseURL url = inl (InvalidURL url))
  ∧ (∀ e, parseURL url = inl e ↔ e = InvalidURL url ∧ regex_match url = None).
Proof.
  split; [apply parseURL_inr_iff|].
  split.
  { intros d (pre & ty & own & num & rest & Hf & _ & Hn & _)%parseURL_inr_iff.
    exists pre, ty, own, num, rest. split; [done|].
    destruct Hf as ((_ & _ & _ & _ & _ & Hdig) & _). rewrite Hn.
    split; [by apply parseInt_digits | by apply parseInt_exact]. }
  split; [apply parseURL_succeeds_iff|].
  split; [apply parseURL_invalid_iff | apply parseURL_inl_iff].
Qed.

(** ** Field Index *)

Section FieldIndex.

Implicit Types (entries : list ProjectFieldEntry) (entry : ProjectFieldEntry).
Implicit Types (m : gmap string ProjectFieldEntry) (fs : FieldsObject).
Implicit Types (n : string).

(** The fold into a map holds, under each name, the last entry with an id
    and that name. *)
Lemma fold_index_lookup entries m n :
  fold_left index_step entries m !! n
  = match last_kept n entries with
    | Some e => Some e
    | None => m !! n
    end.
Proof.
  unfold last_kept. revert m.
  induction entries as [|entry rest IH]; intros m; simpl; [done|].
  rewrite filter_cons. unfold index_step at 2.
  destruct (fieldId entry) as [i|] eqn:Ei.
  - rewrite IH. destruct (decide (fieldName entry = n)) as [<-|Hne].
    + rewrite decide_True by (split; [by eexists | done]).
      rewrite last_cons. rewrite lookup_insert_eq.
      by destruct (last _).
    + rewrite decide_False by (by intros [_ ?]).
      by rewrite lookup_insert_ne.
  - rewrite decide_False by (intros [[? ?] _]; congruence). apply IH.
Qed.

Lemma fold_index_dom entries m :
  dom (fold_left index_step entries m) = kept_names entries ∪ dom m.
Proof.
  unfold kept_names. revert m.
  induction entries as [|entry rest IH]; intros m; simpl.
  - by rewrite (left_id_L ∅ (∪)).
  - rewrite filter_cons. unfold index_step at 2.
    destruct (fieldId entry) as [i|] eqn:Ei.
    + rewrite decide_True by by eexists. rewrite IH, dom_insert_L.
      rewrite fmap_cons, list_to_set_cons.
      rewrite (assoc_L (∪)).
      by rewrite (comm_L (∪) (list_to_set _) {[fieldName entry]}).
    + rewrite decide_False by (intros [? ?]; congruence). apply IH.
Qed.

Lemma last_kept_cons_skip n entry entries :
  ¬ (is_Some (fieldId entry) ∧ fieldName entry = n) →
  last_kept n (entry :: entries) = last_kept n entries.
Proof. intros H. unfold last_kept. by rewrite filter_cons_False. Qed.

Lemma last_kept_cons_keep n entry entries :
  is_Some (fieldId entry) → fieldName entry = n →
  last_kept n (entry :: entries)
  = match last_kept n entries with Some e => Some e | None => Some entry end.
Proof.
  intros H1 H2. unfold last_kept. rewrite filter_cons_True by done.
  apply last_cons.
Qed.

(** Two objects with the same own properties and the same prototype are the
    same object. *)
Lemma FieldsObject_eq fs1 fs2 :
  (∀ n, fs1 !! n = fs2 !! n) → proto fs1 = proto fs2 → fs1 = fs2.
Proof.
  destruct fs1 as [o1 p1], fs2 as [o2 p2]. simpl. intros Ho ->.
  f_equal. apply map_eq, Ho.
Qed.

Lemma fields_lookup_own fs n : fs !! n = own fs !! n.
Proof. reflexivity. Qed.

Lemma set_property_lookup fs key entry n :
  set_property fs key entry !! n
  = if decide (key = "__proto__" ∧ fs !! "__proto__" = None) then fs !! n
    else if decide (key = n) then Some entry else fs !! n.
Proof.
  rewrite !fields_lookup_own. unfold set_property.
  destruct (decide (key = "__proto__" ∧ own fs !! "__proto__" = None));
    [done|]. simpl.
  destruct (decide (key = n)) as [->|];
    [apply lookup_insert_eq | by apply lookup_insert_ne].
Qed.

Lemma set_property_proto fs key entry :
  proto (set_property fs key entry)
  = if decide (key = "__proto__" ∧ fs !! "__proto__" = None) then Some entry
    else proto fs.
Proof.
  rewrite fields_lookup_own. unfold set_property.
  by destruct (decide (key = "__proto__" ∧ own fs !! "__proto__" = None)).
Qed.

(** What [initFields] leaves under a name: the last entry with an id and
    that name, or what was there; except that the name [__proto__] stays
    undefined in an object that did not have it. *)
Lemma initFields_lookup entries fs n :
  initFields entries fs !! n
  = if decide (n = "__proto__" ∧ fs !! "__proto__" = None) then None
    else match last_kept n entries with
         | Some e => Some e
         | None => fs !! n
         end.
Proof.
  revert fs. induction entries as [|entry rest IH]; intros fs.
  - simpl. destruct (decide _) as [[-> H]|]; done.
  - cbn [initFields]. destruct (fieldId entry) as [i|] eqn:Ei.
    + rewrite IH.
      destruct (decide (fieldName entry = n)) as [Hn|Hn].
      * rewrite (last_kept_cons_keep n) by (by eexists || done).
        rewrite !set_property_lookup.
        repeat case_decide; destruct (last_kept n rest);
          destruct_and?; simplify_eq; try done; exfalso; intuition congruence.
      * rewrite (last_kept_cons_skip n) by (by intros [_ ?]).
        rewrite !set_property_lookup.
        repeat case_decide; destruct (last_kept n rest);
          destruct_and?; simplify_eq; try done; exfalso; intuition congruence.
    + rewrite IH. rewrite last_kept_cons_skip; [done|].
      intros [[? ?] _]. congruence.
Qed.

(** The own property [__proto__] is never created. *)
Lemma initFields_proto_key entries fs :
  initFields entries fs !! "__proto__" = None ↔ fs !! "__proto__" = None.
Proof.
  rewrite initFields_lookup.
  destruct (decide _) as [[_ H]|H]; [done|].
  assert (fs !! "__proto__" ≠ None) as Hne by (intros ?; by apply H).
  destruct (last_kept _ _); split; done.
Qed.

(** The prototype after [initFields]: the last entry with an id named
    [__proto__], if the object had no own property of that name and there is
    such an entry; the prototype it had, otherwise. *)
Lemma initFields_proto entries fs :
  proto (initFields entries fs)
  = if decide (fs !! "__proto__" = None)
    then match last_kept "__proto__" entries with
         | Some e => Some e
         | None => proto fs
         end
    else proto fs.
Proof.
  revert fs. induction entries as [|entry rest IH]; intros fs.
  - simpl. by destruct (decide _).
  - cbn [initFields]. destruct (fieldId entry) as [i|] eqn:Ei.
    + rewrite IH, set_property_proto, set_property_lookup.
      destruct (decide (fieldName entry = "__proto__"
                        ∧ fs !! "__proto__" = None)) as [[Hk Hp]|Hnp].
      * rewrite !decide_True by done.
        rewrite last_kept_cons_keep by (by eexists || done).
        by destruct (last_kept _ rest).
      * destruct (decide (fieldName entry = "__proto__")) as [Hk|Hk].
        -- rewrite decide_False by done.
           rewrite decide_False; [done|]. intros ?. by apply Hnp.
        -- destruct (decide (fs !! "__proto__" = None)); [|done].
           rewrite last_kept_cons_skip by (by intros [_ ?]). done.
    + rewrite IH. rewrite last_kept_cons_skip; [done|].
      intros [[? ?] _]. congruence.
Qed.

Lemma initFields_app entries1 entries2 fs :
  initFields (entries1 ++ entries2) fs
  = initFields entries2 (initFields entries1 fs).
Proof.
  revert fs. induction entries1 as [|entry rest IH]; intros fs; [done|].
  simpl. by destruct (fieldId entry).
Qed.

(** Without an entry that has an id and the name [__proto__], the own
    properties are the fold into a map. *)
Lemma initFields_own entries fs :
  last_kept "__proto__" entries = None →
  own (initFields entries fs) = fold_left index_step entries (own fs).
Proof.
  intros Hp. apply map_eq. intros n.
  rewrite <- fields_lookup_own.
  rewrite initFields_lookup, fold_index_lookup, fields_lookup_own.
  destruct (decide _) as [[-> H]|]; [|done]. by rewrite Hp.
Qed.

End FieldIndex.

(** C6.  The claim fails on a field that its board names [__proto__]: the
    entry has an id, so its name is among the names the index should have as
    keys, but the assignment of line 157 makes the entry the prototype of
    [this.fields] and defines no key: the index has no key at all, and reads
    nothing under that name. *)
Theorem initFields_proto_name :
  is_Some (fieldId proto_entry)
  ∧ kept_names [proto_entry] = {[ "__proto__" ]}
  ∧ keys (initFields [proto_entry] ∅) = ∅
  ∧ initFields [proto_entry] ∅ !! "__proto__" = None
  ∧ proto (initFields [proto_entry] ∅) = Some proto_entry.
Proof.
  split; [by eexists|]. split.
  { unfold kept_names. rewrite filter_cons_True by by eexists.
    rewrite filter_nil, fmap_cons, list_to_set_cons. simpl.
    by rewrite (right_id_L ∅ (∪)). }
  split; [|done]. unfold keys. simpl. apply dom_empty_L.
Qed.

(** X29.  For a sequence in which no entry with an id is named [__proto__],
    building the index from the empty object is a left fold of [index_step]
    over the entries: the prototype is untouched, the keys are exactly the
    names of the entries that have an id, and under each key the index holds
    the last such entry with that name, so a later entry replaces an earlier
    one of the same name.  The empty sequence gives the empty index. *)
Theorem initFields_index (entries : list ProjectFieldEntry) :
  last_kept "__proto__" entries = None →
  own (initFields entries ∅) = fold_left index_step entries ∅
  ∧ proto (initFields entries ∅) = None
  ∧ keys (initFields entries ∅) = kept_names entries
  ∧ (∀ n, n ∈ keys (initFields entries ∅) ↔
          ∃ e, e ∈ entries ∧ is_Some (fieldId e) ∧ fieldName e = n)
  ∧ (∀ n, initFields entries ∅ !! n = last_kept n entries)
  ∧ (∀ before e after,
       entries = before ++ e :: after →
       is_Some (fieldId e) →
       (∀ e', e' ∈ after → is_Some (fieldId e') →
              fieldName e' ≠ fieldName e) →
       initFields entries ∅ !! fieldName e = Some e)
  ∧ initFields [] ∅ = ∅.
Proof.
  intros Hproto.
  assert (∀ n, initFields entries ∅ !! n = last_kept n entries) as Hlk.
  { intros n. rewrite initFields_lookup.
    destruct (decide _) as [[-> _]|_]; [done|].
    by destruct (last_kept n entries). }
  assert (keys (initFields entries ∅) = kept_names entries) as Hdom.
  { unfold keys. rewrite initFields_own by done. simpl.
    by rewrite fold_index_dom, dom_empty_L, (right_id_L ∅ (∪)). }
  split; [by apply initFields_own|].
  split; [by rewrite initFields_proto, Hproto|]. split; [done|].
  split; [|split; [done|split; [|done]]].
  - intros n. rewrite Hdom. unfold kept_names.
    rewrite elem_of_list_to_set, list_elem_of_fmap.
    split.
    + intros (e & -> & [? ?]%list_elem_of_filter). eauto.
    + intros (e & ? & ? & <-). exists e. split; [done|].
      by apply list_elem_of_filter.
  - intros before e after -> He Hlater.
    rewrite Hlk. unfold last_kept.
    rewrite filter_app, filter_cons_True by done.
    assert (filter (λ e', is_Some (fieldId e') ∧ fieldName e' = fieldName e)
                   after = []) as ->.
    { clear Hlk Hdom Hproto. induction after as [|e' after IH]; [done|].
      rewrite filter_cons_False.
      - apply IH. intros e'' Hin. apply Hlater. by right.
      - intros [Hid Hname]. eapply Hlater; [by left | done | done]. }
    by rewrite last_snoc.
Qed.

(** ** Status Resolver *)

Section StatusResolver.

Context {W : Type}.
Variable toLowerCase : string → string.

Lemma status_matches_spec (wanted : string) (o : FieldOption) :
  status_matches toLowerCase wanted o = true
  ↔ contains_ci toLowerCase (optName o) wanted.
Proof. unfold status_matches, contains_ci. apply includes_spec. Qed.

Lemma status_matches_false (wanted : string) (o : FieldOption) :
  status_matches toLowerCase wanted o = false
  ↔ ¬ contains_ci toLowerCase (optName o) wanted.
Proof.
  rewrite <- status_matches_spec.
  destruct (status_matches toLowerCase wanted o); split; congruence.
Qed.

(** [find] returns the first element, in list order, that satisfies the
    predicate. *)
Lemma find_first {A} (f : A → bool) (l : list A) :
  match find f l with
  | Some x => ∃ before after,
      l = before ++ x :: after ∧ f x = true
      ∧ ∀ y, y ∈ before → f y = false
  | None => ∀ y, y ∈ l → f y = false
  end.
Proof.
  induction l as [|a l IH]; simpl.
  - intros y Hy. by apply elem_of_nil in Hy.
  - destruct (f a) eqn:Ea.
    + exists [], l. split; [done|]. split; [done|].
      intros y Hy. by apply elem_of_nil in Hy.
    + destruct (find f l) as [x|].
      * destruct IH as (before & after & -> & Hx & Hb).
        exists (a :: before), after. split; [done|]. split; [done|].
        intros y [->|Hy]%elem_of_cons; auto.
      * intros y [->|Hy]%elem_of_cons; auto.
Qed.

(** [getStatusField] reads the object and leaves the state alone. *)
Lemma getStatusField_run (wanted : string) (s : State W) :
  getStatusField toLowerCase wanted s
  = (s, match fields (this s) !! "Status" with
        | None => inl MissingStatusField
        | Some statusField =>
            inr (status_ref statusField
                   <$> find (status_matches toLowerCase wanted)
                            (fieldOptions statusField))
        end).
Proof.
  unfold getStatusField, bind, get_this.
  destruct (fields (this s) !! "Status") as [sf|]; [|done].
  by destruct (find _ _).
Qed.

End StatusResolver.

(** ** Project Orchestrator *)

Section Orchestrator.

Context {W : Type}.
Variable remote : Remote W.
Variable toLowerCase : string → string.

Implicit Types (s : State W) (itemID pid : string) (isPR : bool).

(** [addToProject] is its membership steps followed by its status steps. *)
Lemma addToProject_stages itemID isPR s :
  addToProject remote toLowerCase itemID isPR s
  = match projectID (this s) with
    | None => (s, inl NotInitialized)
    | Some pid =>
        match ensureMember remote itemID pid s with
        | (s1, inl e) => (s1, inl e)
        | (s1, inr item) =>
            applyStatus remote toLowerCase pid isPR item s1
        end
    end.
Proof.
  unfold addToProject, applyStatus, ensureMember, bind, get_this.
  destruct (projectID (this s)) as [pid|]; [|done].
  by destruct (getProjectItem remote itemID pid s) as [s1 [e|[it|]]].
Qed.

(** The membership steps, answer by answer. *)
Lemma ensureMember_run itemID pid s :
  ensureMember remote itemID pid s
  = let '(w1, r1) := remote_getProjectItem remote itemID pid (world s) in
    let t1 := trace s ++ [CallGetProjectItem itemID pid] in
    match r1 with
    | Threw e => (mkState (this s) w1 t1, inl (Uncaught e))
    | Returned (Some it) => (mkState (this s) w1 t1, inr it)
    | Returned None =>
        let '(w2, r2) := remote_addProjectItem remote itemID pid w1 in
        let t2 := t1 ++ [CallAddProjectItem itemID pid] in
        match r2 with
        | Threw _ => (mkState (this s) w2 t2, inl AddFailed)
        | Returned None => (mkState (this s) w2 t2, inl AddReturnedNoID)
        | Returned (Some newID) =>
            let '(w3, r3) := remote_getProjectItem remote itemID pid w2 in
            let t3 := t2 ++ [CallGetProjectItem itemID pid] in
            match r3 with
            | Threw e => (mkState (this s) w3 t3, inl (Uncaught e))
            | Returned None =>
                (mkState (this s) w3 t3, inl MembershipNotFoundAfterAdd)
            | Returned (Some it) =>
                if decide (prjItemID it ≠ newID)
                then (mkState (this s) w3 t3,
                      inl (MembershipIDMismatch (prjItemID it) newID))
                else (mkState (this s) w3 t3, inr it)
            end
        end
    end.
Proof.
  unfold ensureMember, bind, try_catch, getProjectItem, addProjectItem,
    await, throw, ret. simpl.
  destruct (remote_getProjectItem remote itemID pid (world s))
    as [w1 [[it|]|e]]; simpl; try reflexivity.
  destruct (remote_addProjectItem remote itemID pid w1)
    as [w2 [[newID|]|e]]; simpl; try reflexivity.
  destruct (remote_getProjectItem remote itemID pid w2)
    as [w3 [[it|]|e]]; simpl; try reflexivity.
  destruct (decide (prjItemID it ≠ newID)); reflexivity.
Qed.

(** The status steps, answer by answer. *)
Lemma applyStatus_run pid isPR (item : ProjectItem) s :
  applyStatus remote toLowerCase pid isPR item s
  = let wanted := wanted_status (this s) isPR in
    match fields (this s) !! "Status" with
    | None => (s, inl MissingStatusField)
    | Some sf =>
        match find (status_matches toLowerCase wanted) (fieldOptions sf) with
        | None => (s, inl (StatusValueNotFound wanted))
        | Some o =>
            let c := CallUpdateIssueStatus pid (prjItemID item)
                                           (fieldId sf) (optID o) in
            let '(w', r) :=
              remote_updateIssueStatus remote pid (prjItemID item)
                                       (fieldId sf) (optID o) (world s) in
            let s' := mkState (this s) w' (trace s ++ [c]) in
            match r with
            | Returned _ => (s', inr (prjItemID item))
            | Threw e => (s', inl (Uncaught e))
            end
        end
    end.
Proof.
  unfold applyStatus, bind, get_this. rewrite getStatusField_run.
  unfold wanted_status.
  destruct (fields (this s) !! "Status") as [sf|]; [|done].
  destruct (find _ _) as [o|]; [|done]. simpl.
  unfold updateIssueStatus, await. simpl.
  destruct (remote_updateIssueStatus _ _ _ _ _ _) as [w' [[]|e]]; done.
Qed.

Local Ltac frame_case :=
  intros [= <- <-]; split; [done|]; eexists;
  split; [by rewrite <- ?(assoc_L (++))|];
  split; [done|]; split; [cbv; lia|];
  split; [intros ? ?; by simplify_eq | intros ? ? ?; by simplify_eq].

(** What the membership steps leave behind: the object untouched, and at most
    three calls, none of them a set-field-value and at most one an add. *)
Lemma ensureMember_frame itemID pid s s1 (r : error + ProjectItem) :
  ensureMember remote itemID pid s = (s1, r) →
  this s1 = this s
  ∧ ∃ cs, trace s1 = trace s ++ cs
          ∧ filter is_update cs = []
          ∧ (count_adds cs <= 1)%nat
          ∧ (∀ it, (remote_getProjectItem remote itemID pid (world s)).2
                   = Returned (Some it) →
                   cs = [CallGetProjectItem itemID pid] ∧ r = inr it)
          ∧ ((remote_getProjectItem remote itemID pid (world s)).2
             = Returned None →
             ∀ it, r = inr it → count_adds cs = 1%nat).
Proof.
  rewrite ensureMember_run.
  destruct (remote_getProjectItem remote itemID pid (world s))
    as [w1 [[it|]|e]]; simpl.
  - frame_case.
  - destruct (remote_addProjectItem remote itemID pid w1)
      as [w2 [[newID|]|e]]; simpl; [|frame_case..].
    destruct (remote_getProjectItem remote itemID pid w2)
      as [w3 [[it|]|e]]; simpl; [|frame_case..].
    destruct (decide (prjItemID it ≠ newID)); frame_case.
  - frame_case.
Qed.

(** After the membership steps have produced an item, a stable remote
    answers a lookup with that item. *)
Lemma ensureMember_then_lookup itemID pid s s1 (item : ProjectItem) :
  Stable remote →
  ensureMember remote itemID pid s = (s1, inr item) →
  remote_getProjectItem remote itemID pid (world s1)
  = (world s1, Returned (Some item)).
Proof.
  intros HS. rewrite ensureMember_run.
  destruct (remote_getProjectItem remote itemID pid (world s))
    as [w1 [[it|]|e]] eqn:E1; simpl.
  - intros [= <- <-]. simpl.
    pose proof (lookup_reads remote HS itemID pid (world s)) as Hw.
    rewrite E1 in Hw. simpl in Hw. subst w1. done.
  - destruct (remote_addProjectItem remote itemID pid w1)
      as [w2 [[newID|]|e]]; simpl; [|done|done].
    destruct (remote_getProjectItem remote itemID pid w2)
      as [w3 [[it|]|e]] eqn:E3; simpl; [|done|done].
    destruct (decide (prjItemID it ≠ newID)); [done|].
    intros [= <- <-]. simpl.
    pose proof (lookup_reads remote HS itemID pid w2) as Hw.
    rewrite E3 in Hw. simpl in Hw. subst w3. done.
  - done.
Qed.

(** The failures of the membership steps. *)
Lemma ensureMember_errors itemID pid s s1 (e : error) :
  ensureMember remote itemID pid s = (s1, inl e) →
  e = AddFailed ∨ e = AddReturnedNoID ∨ e = MembershipNotFoundAfterAdd
  ∨ (∃ found added, e = MembershipIDMismatch found added)
  ∨ (∃ m, e = Uncaught m).
Proof.
  rewrite ensureMember_run.
  destruct (remote_getProjectItem remote itemID pid (world s))
    as [w1 [[it|]|m]]; simpl; [done| |intros [= <- <-]; eauto 10].
  destruct (remote_addProjectItem remote itemID pid w1)
    as [w2 [[newID|]|m]]; simpl; [|intros [= <- <-]; eauto 10..].
  destruct (remote_getProjectItem remote itemID pid w2)
    as [w3 [[it|]|m]]; simpl; [|intros [= <- <-]; eauto 10..].
  destruct (decide (prjItemID it ≠ newID)); [|done].
  intros [= <- <-]. eauto 10.
Qed.

(** [init], answer by answer. *)
Lemma init_run s :
  init remote s
  = let d := desc (this s) in
    let '(w', r) :=
      remote_graphql remote (owner d) (projectNumber d) (isOrg d) (world s) in
    let t' := trace s ++ [CallGraphql (owner d) (projectNumber d) (isOrg d)] in
    match r with
    | Threw e => (mkState (this s) w' t', inl (Uncaught e))
    | Returned res =>
        match (if isOrg d then organization res else user res) with
        | None => (mkState (this s) w' t', inl BoardNotFound)
        | Some prjv2 =>
            (mkState {| octokit := octokit (this s); desc := d;
                        projectID := Some (prjID prjv2);
                        fields := initFields (prjFieldNodes prjv2)
                                             (fields (this s));
                        defaultStatus := defaultStatus (this s) |}
                     w' t',
             inr (prjID prjv2, prjTitle prjv2))
        end
    end.
Proof.
  unfold init, bind, get_this, put_this, await, throw, ret. simpl.
  destruct (remote_graphql remote _ _ _ _) as [w' [res|e]]; simpl; [|done].
  destruct (isOrg (desc (this s)));
    [destruct (organization res) | destruct (user res)]; done.
Qed.

End Orchestrator.

(** ** The claims about the orchestrator *)

Section Claims.

Context {W : Type}.
Variable remote : Remote W.
Variable toLowerCase : string → string.

Implicit Types (s : State W) (itemID pid : string) (isPR : bool).

Local Ltac use_answers :=
  repeat match goal with
         | E : ?t = _, H : ?t = _ |- _ => rewrite E in H; simplify_eq
         end.

Local Ltac answer_case :=
  intros; simplify_eq/=; use_answers; repeat split;
  rewrite <- ?(assoc_L (++));
  solve [ done | by rewrite decide_True | by rewrite decide_False
        | by eexists | eauto 10 ].

(** C1, as the code has it.  With no field named "Status" in the index, an
    initialised [addToProject] always fails, leaves the object as it was and
    never issues a set-field-value call.  When the lookup finds the item on
    the board it fails with [MissingStatusField] after that lookup alone, with
    no mutation.  When the item is not yet a member the add call comes first,
    and after an add that returned an id the second lookup: once the
    membership steps have produced an item the failure is
    [MissingStatusField], and otherwise it is the failure of those steps,
    answer by answer as listed. *)
Theorem missing_status_field itemID isPR s pid :
  fields (this s) !! "Status" = None →
  projectID (this s) = Some pid →
  ∃ s' e cs,
    addToProject remote toLowerCase itemID isPR s = (s', inl e)
    ∧ this s' = this s
    ∧ trace s' = trace s ++ cs
    ∧ filter is_update cs = []
    ∧ (∀ it, (remote_getProjectItem remote itemID pid (world s)).2
             = Returned (Some it) →
             cs = [CallGetProjectItem itemID pid] ∧ e = MissingStatusField)
    ∧ (∀ s1 item, ensureMember remote itemID pid s = (s1, inr item) →
                  s' = s1 ∧ e = MissingStatusField)
    ∧ (e = MissingStatusField ∨ e = AddFailed ∨ e = AddReturnedNoID
       ∨ e = MembershipNotFoundAfterAdd
       ∨ (∃ found added, e = MembershipIDMismatch found added)
       ∨ (∃ m, e = Uncaught m))
    ∧ (∀ s1 e1, ensureMember remote itemID pid s = (s1, inl e1) →
                s' = s1 ∧ e = e1)
    ∧ (∀ w1 m,
         remote_getProjectItem remote itemID pid (world s) = (w1, Threw m) →
         world s' = w1 ∧ cs = [CallGetProjectItem itemID pid]
         ∧ e = Uncaught m)
    ∧ (∀ w1,
         remote_getProjectItem remote itemID pid (world s)
         = (w1, Returned None) →
         ∃ cs', cs = [CallGetProjectItem itemID pid;
                      CallAddProjectItem itemID pid] ++ cs')
    ∧ (∀ w1 w2 m,
         remote_getProjectItem remote itemID pid (world s)
         = (w1, Returned None) →
         remote_addProjectItem remote itemID pid w1 = (w2, Threw m) →
         world s' = w2
         ∧ cs = [CallGetProjectItem itemID pid; CallAddProjectItem itemID pid]
         ∧ e = AddFailed)
    ∧ (∀ w1 w2,
         remote_getProjectItem remote itemID pid (world s)
         = (w1, Returned None) →
         remote_addProjectItem remote itemID pid w1 = (w2, Returned None) →
         world s' = w2
         ∧ cs = [CallGetProjectItem itemID pid; CallAddProjectItem itemID pid]
         ∧ e = AddReturnedNoID)
    ∧ (∀ w1 w2 w3 A r3,
         remote_getProjectItem remote itemID pid (world s)
         = (w1, Returned None) →
         remote_addProjectItem remote itemID pid w1
         = (w2, Returned (Some A)) →
         remote_getProjectItem remote itemID pid w2 = (w3, r3) →
         world s' = w3
         ∧ cs = [CallGetProjectItem itemID pid; CallAddProjectItem itemID pid;
                 CallGetProjectItem itemID pid]
         ∧ e = match r3 with
               | Threw m => Uncaught m
               | Returned None => MembershipNotFoundAfterAdd
               | Returned (Some it) =>
                   if decide (prjItemID it ≠ A)
                   then MembershipIDMismatch (prjItemID it) A
                   else MissingStatusField
               end).
Proof.
  intros Hno Hpid. rewrite addToProject_stages, Hpid.
  assert (∀ w t item, applyStatus remote toLowerCase pid isPR item
                        (mkState (this s) w t)
                      = (mkState (this s) w t, inl MissingStatusField))
    as Hst.
  { intros w t item. rewrite applyStatus_run. simpl. by rewrite Hno. }
  rewrite ensureMember_run.
  destruct (remote_getProjectItem remote itemID pid (world s))
    as [w1 [[it|]|m]] eqn:E1; simpl.
  { rewrite Hst. eexists _, _, [_]. simpl. split_and!; answer_case. }
  2:{ eexists _, _, [_]. simpl. split_and!; answer_case. }
  destruct (remote_addProjectItem remote itemID pid w1)
    as [w2 [[newID|]|m]] eqn:E2; simpl;
    [|eexists _, _, [_; _]; simpl; split_and!; answer_case..].
  destruct (remote_getProjectItem remote itemID pid w2)
    as [w3 [[it|]|m]] eqn:E3; simpl;
    [|eexists _, _, [_; _; _]; simpl; split_and!; answer_case..].
  destruct (decide (prjItemID it ≠ newID)) as [Hne|Heq];
    rewrite ?Hst; eexists _, _, [_; _; _]; simpl; split_and!; answer_case.
Qed.

(** C2.  On an initialised object, when the lookup reports the item absent,
    the add call returns the board-item id [A], and the second lookup returns
    an item whose id differs from [A], [addToProject] fails with
    [MembershipIDMismatch]; the calls it issued are the lookup, the add and
    the second lookup, so no set-field-value call was made. *)
Theorem membership_id_mismatch itemID isPR s pid w1 w2 w3 A
    (it : ProjectItem) :
  projectID (this s) = Some pid →
  remote_getProjectItem remote itemID pid (world s) = (w1, Returned None) →
  remote_addProjectItem remote itemID pid w1 = (w2, Returned (Some A)) →
  remote_getProjectItem remote itemID pid w2 = (w3, Returned (Some it)) →
  prjItemID it ≠ A →
  let cs := [CallGetProjectItem itemID pid; CallAddProjectItem itemID pid;
             CallGetProjectItem itemID pid] in
  addToProject remote toLowerCase itemID isPR s
  = (mkState (this s) w3 (trace s ++ cs),
     inl (MembershipIDMismatch (prjItemID it) A))
  ∧ filter is_update cs = [].
Proof.
  intros Hpid H1 H2 H3 Hne. simpl. split; [|done].
  rewrite addToProject_stages, Hpid, ensureMember_run, H1, H2, H3.
  rewrite decide_True by done. by rewrite <- !(assoc_L (++)).
Qed.

(** C3, as the code has it.  Against a remote that changes only through the
    calls made, when a first [addToProject] for an item succeeds with the
    board-item id [id], a second one for the same item succeeds with [id] too.
    The second call issues a lookup and a set-field-value and no add.  Across
    the two calls at most one add is issued: exactly one when the first lookup
    found the item absent, none when it found the item already on the
    board. *)
Theorem addToProject_twice itemID isPR s0 s1 pid (id : string) :
  Stable remote →
  projectID (this s0) = Some pid →
  addToProject remote toLowerCase itemID isPR s0 = (s1, inr id) →
  ∃ s2 cs1 cs2,
    addToProject remote toLowerCase itemID isPR s1 = (s2, inr id)
    ∧ trace s1 = trace s0 ++ cs1
    ∧ trace s2 = trace s1 ++ cs2
    ∧ count_adds cs2 = 0%nat
    ∧ (count_adds (cs1 ++ cs2) <= 1)%nat
    ∧ ((remote_getProjectItem remote itemID pid (world s0)).2
       = Returned None → count_adds (cs1 ++ cs2) = 1%nat)
    ∧ (∀ it, (remote_getProjectItem remote itemID pid (world s0)).2
             = Returned (Some it) → count_adds (cs1 ++ cs2) = 0%nat).
Proof.
  intros HS Hpid. rewrite addToProject_stages, Hpid.
  destruct (ensureMember remote itemID pid s0) as [sa [e|item]] eqn:E;
    [done|].
  pose proof (ensureMember_then_lookup _ _ _ _ _ _ HS E) as Hlk.
  apply ensureMember_frame in E
    as (Hthis & cs & Htr & _ & Hadds & Hpres & Habs).
  rewrite applyStatus_run. cbv zeta. rewrite Hthis.
  destruct (fields (this s0) !! "Status") as [sf|] eqn:Esf; [|done].
  destruct (find _ _) as [o|] eqn:Eo; [|done]. simpl.
  destruct (remote_updateIssueStatus remote pid (prjItemID item)
              (fieldId sf) (optID o) (world sa)) as [wu [[]|m]] eqn:Eu;
    [|done].
  intros [= <- <-].
  rewrite addToProject_stages. simpl. rewrite Hpid.
  rewrite ensureMember_run. simpl.
  pose proof (update_keeps_members remote HS pid (prjItemID item) (fieldId sf)
                (optID o) itemID pid (world sa)) as Hk.
  pose proof (lookup_reads remote HS itemID pid wu) as Hr.
  rewrite Eu, Hlk in Hk. simpl in Hk.
  destruct (remote_getProjectItem remote itemID pid wu) as [wl rl] eqn:El.
  simpl in Hk, Hr. subst wl rl.
  rewrite applyStatus_run. simpl. rewrite Esf, Eo.
  pose proof (update_repeats remote HS pid (prjItemID item) (fieldId sf)
                (optID o) (world sa)) as Hrep.
  rewrite Eu in Hrep. simpl in Hrep. specialize (Hrep eq_refl).
  destruct (remote_updateIssueStatus remote pid (prjItemID item)
              (fieldId sf) (optID o) wu) as [wu' ru] eqn:Eu'.
  simpl in Hrep. subst ru.
  eexists _, (cs ++ [_]), [_; _].
  split; [done|]. simpl.
  split; [by rewrite Htr, (assoc_L (++))|].
  split; [by rewrite <- (assoc_L (++))|].
  split; [done|].
  assert (∀ c1 c2 c3, count_adds
            ((cs ++ [CallUpdateIssueStatus pid (prjItemID item) c1 c2])
             ++ [CallGetProjectItem itemID pid;
                 CallUpdateIssueStatus pid (prjItemID item) c1 c3])
          = count_adds cs) as Hc.
  { intros. unfold count_adds. rewrite !filter_app. simpl.
    rewrite !length_app. simpl. lia. }
  rewrite Hc. split; [done|]. split.
  - intros Hn. by apply (Habs Hn item).
  - intros it Hit. by destruct (Hpres it Hit) as [-> _].
Qed.

(** C7.  Whatever [addToProject] does, and in particular when it fails, the
    object is afterwards what it was before: [projectID], [fields] and the
    other members are unchanged.  So a call on an initialised object leaves it
    initialised, and a later call does not fail with [NotInitialized]. *)
Theorem addToProject_keeps_object itemID isPR s :
  this (addToProject remote toLowerCase itemID isPR s).1 = this s
  ∧ ∀ itemID' isPR',
      projectID (this s) ≠ None →
      (addToProject remote toLowerCase itemID' isPR'
         (addToProject remote toLowerCase itemID isPR s).1).2
      ≠ inl NotInitialized.
Proof.
  assert (∀ i b s0,
            this (addToProject remote toLowerCase i b s0).1 = this s0) as Hk.
  { intros i b s0. rewrite addToProject_stages.
    destruct (projectID (this s0)) as [pid|]; [|done].
    destruct (ensureMember remote i pid s0) as [s1 [e|item]] eqn:E;
      apply ensureMember_frame in E as (Hthis & _); [done|].
    rewrite applyStatus_run. simpl.
    destruct (fields (this s1) !! "Status") as [sf|]; [|done].
    destruct (find _ _) as [o|]; [|done].
    by destruct (remote_updateIssueStatus _ _ _ _ _ _) as [w' [[]|m]]. }
  split; [apply Hk|].
  intros itemID' isPR' Hinit. rewrite addToProject_stages, Hk.
  destruct (projectID (this s)) as [pid|]; [|done].
  destruct (ensureMember _ _ _ _) as [s1 [e|item]] eqn:E.
  - simpl. intros [= ->].
    apply ensureMember_errors in E
      as [H|[H|[H|[(? & ? & H)|(? & H)]]]]; discriminate H.
  - rewrite applyStatus_run. simpl.
    destruct (fields (this s1) !! "Status") as [sf|]; [|done].
    destruct (find _ _) as [o|]; [|done].
    by destruct (remote_updateIssueStatus _ _ _ _ _ _) as [w' [[]|m]].
Qed.

(** C8, as the code has it.  The board URL is resolved by the constructor: it
    fails exactly when the pattern occurs nowhere in the URL, and then with
    [InvalidURL].  [init] works from the descriptor parsed at construction; it
    fails with [BoardNotFound] or with an exception of the schema request,
    never with [InvalidURL]. *)
Theorem constructor_resolves_url (token url : string) (ds : DefaultStatus) :
  (constructor token url ds = inl (InvalidURL url)
   ↔ ¬ ∃ pre ty own num rest, url_pattern url pre ty own num rest)
  ∧ (∀ e, constructor token url ds = inl e → e = InvalidURL url)
  ∧ (∀ p, constructor token url ds = inr p →
          parseURL url = inr (desc p) ∧ projectID p = None ∧ fields p = ∅)
  ∧ (∀ s s' e, init remote s = (s', inl e) →
               e = BoardNotFound ∨ ∃ m, e = Uncaught m).
Proof.
  pose proof (parseURL_invalid_iff url) as Hinv.
  pose proof (parseURL_inl_iff url) as Herr.
  unfold constructor. split; [|split; [|split]].
  - rewrite Hinv. destruct (parseURL url) as [e|d]; split; intros H;
      try discriminate H; by injection H as ->.
  - intros e He. destruct (parseURL url) as [e0|d]; [|done].
    injection He as <-. by destruct (proj1 (Herr e0) eq_refl) as [-> _].
  - destruct (parseURL url) as [e0|d]; [done|]. by intros p [= <-].
  - intros s s' e. rewrite init_run. cbv zeta.
    destruct (remote_graphql remote _ _ _ _) as [w' [res|m]]; simpl.
    + destruct (if isOrg _ then _ else _); [done|]. intros [= _ <-]. by left.
    + intros [= _ <-]. eauto.
Qed.

(** C9.  An object that the constructor has just returned, or whose [init]
    has failed, is not initialised: [addToProject] then fails with
    [NotInitialized] for every item and both kinds, and leaves the state as it
    was, so no lookup, add or set-field-value call is issued. *)
Theorem addToProject_before_init itemID isPR s :
  projectID (this s) = None →
  addToProject remote toLowerCase itemID isPR s = (s, inl NotInitialized)
  ∧ (∀ s' e, init remote s = (s', inl e) →
       addToProject remote toLowerCase itemID isPR s'
       = (s', inl NotInitialized))
  ∧ (∀ s' r, init remote s = (s', inr r) → projectID (this s') ≠ None).
Proof.
  intros Hno. split; [|split].
  - by rewrite addToProject_stages, Hno.
  - intros s' e. rewrite init_run. cbv zeta.
    destruct (remote_graphql remote _ _ _ _) as [w' [res|m]]; simpl.
    + destruct (if isOrg _ then _ else _); [done|]. intros [= <- _].
      by rewrite addToProject_stages; simpl; rewrite Hno.
    + intros [= <- _]. by rewrite addToProject_stages; simpl; rewrite Hno.
  - intros s' r. rewrite init_run. cbv zeta.
    destruct (remote_graphql remote _ _ _ _) as [w' [res|m]]; simpl; [|done].
    destruct (if isOrg _ then _ else _); [|done]. by intros [= <- _].
Qed.

(** C4.  When the index has a field named "Status", [getStatusField] returns
    the reference to the first option, in the order of the options list, whose
    name contains the wanted label as a case-insensitive substring: no option
    before it contains the label.  When no option contains it, the result is
    [undefined], and [addToProject], once its membership steps have produced
    an item, fails with [StatusValueNotFound] carrying the label it asked
    for. *)
Theorem status_resolver_first_match s (sf : ProjectFieldEntry)
    (wanted : string) :
  fields (this s) !! "Status" = Some sf →
  (∃ before o after,
     fieldOptions sf = before ++ o :: after
     ∧ (∀ o', o' ∈ before → ¬ contains_ci toLowerCase (optName o') wanted)
     ∧ contains_ci toLowerCase (optName o) wanted
     ∧ getStatusField toLowerCase wanted s
       = (s, inr (Some (status_ref sf o))))
  ∨ ((∀ o, o ∈ fieldOptions sf →
           ¬ contains_ci toLowerCase (optName o) wanted)
     ∧ getStatusField toLowerCase wanted s = (s, inr None)
     ∧ ∀ itemID isPR pid s1 item,
         wanted_status (this s) isPR = wanted →
         projectID (this s) = Some pid →
         ensureMember remote itemID pid s = (s1, inr item) →
         addToProject remote toLowerCase itemID isPR s
         = (s1, inl (StatusValueNotFound wanted))).
Proof.
  intros Hsf. rewrite getStatusField_run, Hsf.
  pose proof (find_first (status_matches toLowerCase wanted)
                         (fieldOptions sf)) as Hfind.
  destruct (find _ _) as [o|] eqn:Eo.
  - left. destruct Hfind as (before & after & Hsplit & Ho & Hb).
    exists before, o, after. split; [done|]. split; [|split; [|done]].
    + intros o' Hin. by apply status_matches_false, Hb.
    + by apply status_matches_spec.
  - right. split; [|split; [done|]].
    + intros o Hin. by apply status_matches_false, Hfind.
    + intros itemID isPR pid s1 item Hw Hpid E.
      rewrite addToProject_stages, Hpid, E, applyStatus_run. cbv zeta.
      apply ensureMember_frame in E as (-> & _).
      by rewrite Hsf, Hw, Eo.
Qed.

(** C10.  The empty label lower-cases to the empty string, which every name
    contains.  So with a "Status" field whose options list is not empty,
    [getStatusField] resolves the empty label to the first option of the
    list. *)
Theorem empty_label_first_option s (sf : ProjectFieldEntry)
    (o : FieldOption) (rest : list FieldOption) :
  toLowerCase EmptyString = EmptyString →
  fields (this s) !! "Status" = Some sf →
  fieldOptions sf = o :: rest →
  getStatusField toLowerCase EmptyString s
  = (s, inr (Some (status_ref sf o)))
  ∧ contains_ci toLowerCase (optName o) EmptyString.
Proof.
  intros Hlow Hsf Hopts.
  assert (status_matches toLowerCase EmptyString o = true) as Hm.
  { unfold status_matches. rewrite Hlow. apply includes_empty. }
  split; [|by apply status_matches_spec].
  rewrite getStatusField_run, Hsf, Hopts. simpl. by rewrite Hm.
Qed.

End Claims.

(** ** The claims on concrete boards *)

Lemma Board_stable : Stable Board.remote.
Proof. by split. Qed.

Example parseURL_org :
  parseURL "https://github.com/orgs/acme/projects/7"
  = inr (mkProjectDesc "acme" (Finite 7) true).
Proof. reflexivity. Qed.

Example parseURL_user :
  parseURL "https://github.com/users/jdoe/projects/042/views/1"
  = inr (mkProjectDesc "jdoe" (Finite 42) false).
Proof. reflexivity. Qed.

(** Beyond 2^53 the number is rounded: 2^53 + 1 becomes 2^53. *)
Example parseURL_rounds :
  parseURL "https://github.com/orgs/acme/projects/9007199254740993"
  = inr (mkProjectDesc "acme" (Finite 9007199254740992) true).
Proof. vm_compute. reflexivity. Qed.

Example parseURL_bad :
  parseURL "https://github.com/orgs/acme/projects/"
  = inl (InvalidURL "https://github.com/orgs/acme/projects/").
Proof. reflexivity. Qed.

(** The end-to-end scenario of the specification: an organisation board, an
    item that is not yet a member, the default status [Backlog]. *)
Example addToProject_backlog :
  addToProject Board.remote Str.ascii_toLowerCase "I_1" false
               (mkState (project_with [status_entry opts_backlog])
                        empty_board [])
  = (mkState (project_with [status_entry opts_backlog])
             (Board.mk (mkProjectQueryResponse None None)
                       {[ "I_1" := "PVTI_I_1" ]}
                       {[ "PVTI_I_1" := (Some "F_status", "o1") ]})
             [CallGetProjectItem "I_1" "PVT_1";
              CallAddProjectItem "I_1" "PVT_1";
              CallGetProjectItem "I_1" "PVT_1";
              CallUpdateIssueStatus "PVT_1" "PVTI_I_1" (Some "F_status") "o1"],
     inr "PVTI_I_1").
Proof. vm_compute. reflexivity. Qed.

Example status_resolver_done :
  (getStatusField Str.ascii_toLowerCase "done" st_done).2
  = inr (Some (status_ref (status_entry opts_done)
                          (mkFieldOption "c" "✅ Done"))).
Proof. reflexivity. Qed.

Example status_resolver_missing :
  (getStatusField Str.ascii_toLowerCase "missing" st_done).2 = inr None.
Proof. reflexivity. Qed.

Example constructor_new :
  constructor "token" "https://github.com/orgs/acme/projects/7" ds0
  = inr project_new.
Proof. reflexivity. Qed.

(** C1 as stated fails: with no "Status" field and an item that is not yet on
    the board, the add call is issued before [MissingStatusField] is
    raised. *)
Lemma missing_status_field_after_add :
  fields (this st_no_status) !! "Status" = None
  ∧ (addToProject Board.remote Str.ascii_toLowerCase "I_1" false
                  st_no_status).2
    = inl MissingStatusField
  ∧ filter is_mutation
      (trace (addToProject Board.remote Str.ascii_toLowerCase "I_1" false
                           st_no_status).1)
    = [CallAddProjectItem "I_1" "PVT_1"].
Proof. by vm_compute. Qed.

Lemma missing_status_field_witness :
  ∃ s' e cs,
    addToProject Board.remote Str.ascii_toLowerCase "I_1" false st_no_status = (s', inl e)
    ∧ this s' = this st_no_status
    ∧ trace s' = trace st_no_status ++ cs
    ∧ filter is_update cs = []
    ∧ (∀ it, (remote_getProjectItem Board.remote "I_1" "PVT_1" (world st_no_status)).2
             = Returned (Some it) →
             cs = [CallGetProjectItem "I_1" "PVT_1"] ∧ e = MissingStatusField)
    ∧ (∀ s1 item, ensureMember Board.remote "I_1" "PVT_1" st_no_status = (s1, inr item) →
                  s' = s1 ∧ e = MissingStatusField)
    ∧ (e = MissingStatusField ∨ e = AddFailed ∨ e = AddReturnedNoID
       ∨ e = MembershipNotFoundAfterAdd
       ∨ (∃ found added, e = MembershipIDMismatch found added)
       ∨ (∃ m, e = Uncaught m))
    ∧ (∀ s1 e1, ensureMember Board.remote "I_1" "PVT_1" st_no_status = (s1, inl e1) →
                s' = s1 ∧ e = e1)
    ∧ (∀ w1 m,
         remote_getProjectItem Board.remote "I_1" "PVT_1" (world st_no_status) = (w1, Threw m) →
         world s' = w1 ∧ cs = [CallGetProjectItem "I_1" "PVT_1"]
         ∧ e = Uncaught m)
    ∧ (∀ w1,
         remote_getProjectItem Board.remote "I_1" "PVT_1" (world st_no_status)
         = (w1, Returned None) →
         ∃ cs', cs = [CallGetProjectItem "I_1" "PVT_1";
                      CallAddProjectItem "I_1" "PVT_1"] ++ cs')
    ∧ (∀ w1 w2 m,
         remote_getProjectItem Board.remote "I_1" "PVT_1" (world st_no_status)
         = (w1, Returned None) →
         remote_addProjectItem Board.remote "I_1" "PVT_1" w1 = (w2, Threw m) →
         world s' = w2
         ∧ cs = [CallGetProjectItem "I_1" "PVT_1"; CallAddProjectItem "I_1" "PVT_1"]
         ∧ e = AddFailed)
    ∧ (∀ w1 w2,
         remote_getProjectItem Board.remote "I_1" "PVT_1" (world st_no_status)
         = (w1, Returned None) →
         remote_addProjectItem Board.remote "I_1" "PVT_1" w1 = (w2, Returned None) →
         world s' = w2
         ∧ cs = [CallGetProjectItem "I_1" "PVT_1"; CallAddProjectItem "I_1" "PVT_1"]
         ∧ e = AddReturnedNoID)
    ∧ (∀ w1 w2 w3 A r3,
         remote_getProjectItem Board.remote "I_1" "PVT_1" (world st_no_status)
         = (w1, Returned None) →
         remote_addProjectItem Board.remote "I_1" "PVT_1" w1
         = (w2, Returned (Some A)) →
         remote_getProjectItem Board.remote "I_1" "PVT_1" w2 = (w3, r3) →
         world s' = w3
         ∧ cs = [CallGetProjectItem "I_1" "PVT_1"; CallAddProjectItem "I_1" "PVT_1";
                 CallGetProjectItem "I_1" "PVT_1"]
         ∧ e = match r3 with
               | Threw m => Uncaught m
               | Returned None => MembershipNotFoundAfterAdd
               | Returned (Some it) =>
                   if decide (prjItemID it ≠ A)
                   then MembershipIDMismatch (prjItemID it) A
                   else MissingStatusField
               end).
Proof.
  apply (missing_status_field Board.remote Str.ascii_toLowerCase
           "I_1" false st_no_status "PVT_1"); reflexivity.
Defined.

Lemma membership_id_mismatch_witness :
  addToProject Script.remote Str.ascii_toLowerCase "I_1" false st_mismatch
  = (mkState (this st_mismatch) []
             (trace st_mismatch
              ++ [CallGetProjectItem "I_1" "PVT_1";
                  CallAddProjectItem "I_1" "PVT_1";
                  CallGetProjectItem "I_1" "PVT_1"]),
     inl (MembershipIDMismatch "B" "A"))
  ∧ filter is_update [CallGetProjectItem "I_1" "PVT_1";
                      CallAddProjectItem "I_1" "PVT_1";
                      CallGetProjectItem "I_1" "PVT_1"] = [].
Proof.
  apply (membership_id_mismatch Script.remote Str.ascii_toLowerCase
           "I_1" false st_mismatch "PVT_1"
           [Script.Added (Returned (Some "A"));
            Script.Item (Returned (Some (mkProjectItem "B")))]
           [Script.Item (Returned (Some (mkProjectItem "B")))]
           [] "A" (mkProjectItem "B")); try reflexivity.
  simpl. discriminate.
Defined.

(** C3 as stated fails: for an item that is already on the board, two calls
    succeed with the same id and no add is issued at all. *)
Lemma addToProject_twice_member_no_add :
  (addToProject Board.remote Str.ascii_toLowerCase "I_1" false st_member).2
  = inr "PVTI_9"
  ∧ (addToProject Board.remote Str.ascii_toLowerCase "I_1" false
       (addToProject Board.remote Str.ascii_toLowerCase "I_1" false
                     st_member).1).2
    = inr "PVTI_9"
  ∧ count_adds
      (trace (addToProject Board.remote Str.ascii_toLowerCase "I_1" false
                (addToProject Board.remote Str.ascii_toLowerCase "I_1" false
                              st_member).1).1)
    = 0%nat.
Proof. by vm_compute. Qed.

Lemma addToProject_twice_witness :
  ∃ s2 cs1 cs2,
    addToProject Board.remote Str.ascii_toLowerCase "I_1" false
      (addToProject Board.remote Str.ascii_toLowerCase "I_1" false
                    st_absent).1
    = (s2, inr "PVTI_I_1")
    ∧ trace (addToProject Board.remote Str.ascii_toLowerCase "I_1" false
                          st_absent).1
      = trace st_absent ++ cs1
    ∧ trace s2
      = trace (addToProject Board.remote Str.ascii_toLowerCase "I_1" false
                            st_absent).1 ++ cs2
    ∧ count_adds cs2 = 0%nat
    ∧ (count_adds (cs1 ++ cs2) <= 1)%nat
    ∧ ((remote_getProjectItem Board.remote "I_1" "PVT_1"
          (world st_absent)).2 = Returned None →
       count_adds (cs1 ++ cs2) = 1%nat)
    ∧ (∀ it, (remote_getProjectItem Board.remote "I_1" "PVT_1"
                (world st_absent)).2 = Returned (Some it) →
             count_adds (cs1 ++ cs2) = 0%nat).
Proof.
  apply (addToProject_twice Board.remote Str.ascii_toLowerCase
           "I_1" false st_absent _ "PVT_1" "PVTI_I_1" Board_stable);
    [reflexivity | by vm_compute].
Defined.

Lemma status_resolver_first_match_witness :
  (∃ before o after,
     fieldOptions (status_entry opts_done) = before ++ o :: after
     ∧ (∀ o', o' ∈ before →
              ¬ contains_ci Str.ascii_toLowerCase (optName o') "done")
     ∧ contains_ci Str.ascii_toLowerCase (optName o) "done"
     ∧ getStatusField Str.ascii_toLowerCase "done" st_done
       = (st_done, inr (Some (status_ref (status_entry opts_done) o))))
  ∨ ((∀ o, o ∈ fieldOptions (status_entry opts_done) →
           ¬ contains_ci Str.ascii_toLowerCase (optName o) "done")
     ∧ getStatusField Str.ascii_toLowerCase "done" st_done
       = (st_done, inr None)
     ∧ ∀ itemID isPR pid s1 item,
         wanted_status (this st_done) isPR = "done" →
         projectID (this st_done) = Some pid →
         ensureMember Board.remote itemID pid st_done = (s1, inr item) →
         addToProject Board.remote Str.ascii_toLowerCase itemID isPR st_done
         = (s1, inl (StatusValueNotFound "done"))).
Proof.
  apply (status_resolver_first_match Board.remote Str.ascii_toLowerCase
           st_done (status_entry opts_done) "done").
  reflexivity.
Defined.

Lemma empty_label_first_option_witness :
  getStatusField Str.ascii_toLowerCase EmptyString st_done
  = (st_done,
     inr (Some (status_ref (status_entry opts_done)
                           (mkFieldOption "a" "Todo"))))
  ∧ contains_ci Str.ascii_toLowerCase "Todo" EmptyString.
Proof.
  apply (empty_label_first_option Str.ascii_toLowerCase st_done
           (status_entry opts_done) (mkFieldOption "a" "Todo")
           [mkFieldOption "b" "In Progress"; mkFieldOption "c" "✅ Done"]);
    reflexivity.
Defined.

(** C8 as stated fails: with a URL that does not match, there is no object
    for [init] to fail on; the constructor has already failed. *)
Lemma init_never_sees_invalid_url :
  constructor "token" "https://github.com/acme/projects" ds0
  = inl (InvalidURL "https://github.com/acme/projects")
  ∧ ¬ init_fails_with_InvalidURL "token" "https://github.com/acme/projects"
                                 ds0.
Proof.
  split; [reflexivity|]. intros (p & s' & Hc & _). discriminate Hc.
Qed.

Lemma addToProject_before_init_witness :
  addToProject Board.remote Str.ascii_toLowerCase "I_1" true st_new
  = (st_new, inl NotInitialized)
  ∧ (∀ s' e, init Board.remote st_new = (s', inl e) →
       addToProject Board.remote Str.ascii_toLowerCase "I_1" true s'
       = (s', inl NotInitialized))
  ∧ (∀ s' r, init Board.remote st_new = (s', inr r) →
             projectID (this s') ≠ None).
Proof.
  apply (addToProject_before_init Board.remote Str.ascii_toLowerCase
           "I_1" true st_new).
  reflexivity.
Defined.

(** * Further properties *)

(** ** URL Resolver: board URLs and their parts *)

Section URLForms.

Lemma match_here_not_slash (a : ascii) (s : string) :
  Str.not_slash a = true → match_here (String a s) = None.
Proof.
  unfold Str.not_slash, match_here, mbind, option_bind. intros Ha.
  apply negb_true_iff, bool_decide_eq_false in Ha.
  unfold Str.strip_prefix. destruct (decide ("/"%char = a)); [|done].
  by subst a.
Qed.

(** No match starts inside a prefix that has no slash. *)
Lemma regex_match_skip (pre s : string) :
  Str.all Str.not_slash pre = true →
  regex_match (pre +:+ s) = regex_match s.
Proof.
  induction pre as [|a pre IH]; [done|].
  intros H. simpl in H. apply andb_true_iff in H as [Ha Hpre].
  change (String a pre +:+ s) with (String a (pre +:+ s)).
  rewrite regex_match_cons, match_here_not_slash by done. by apply IH.
Qed.

(** Two readings of one string as a segment, a slash and a rest agree. *)
Lemma segment_unique (a b x y : string) :
  Str.all Str.not_slash a = true → Str.all Str.not_slash b = true →
  a +:+ "/" +:+ x = b +:+ "/" +:+ y → a = b ∧ x = y.
Proof.
  intros Ha Hb He.
  assert (Str.span Str.not_slash (a +:+ "/" +:+ x) = (a, "/" +:+ x)) as E1
    by by apply span_spec.
  assert (Str.span Str.not_slash (b +:+ "/" +:+ y) = (b, "/" +:+ y)) as E2
    by by apply span_spec.
  rewrite He, E2 in E1. by injection E1 as -> ->.
Qed.

(** An occurrence at the start of [s] whose number is followed by no digit
    is the match found there. *)
Lemma match_here_exact (s ty own num rest : string) :
  url_pattern s EmptyString ty own num rest →
  Str.head_satisfies Str.is_digit rest = false →
  match_here s = Some (mkGroups ty own num).
Proof.
  intros Hp Hhd.
  destruct (match_here_complete _ _ _ _ _ Hp) as (m & r' & Hs & -> & _).
  destruct m as [|c m]; [by rewrite append_empty_r in Hs|].
  destruct (match_here_sound _ _ Hs) as (r'' & Hp'' & _).
  destruct Hp'' as (_ & _ & _ & _ & _ & Hd). simpl in Hd.
  rewrite all_app in Hd. simpl in *.
  apply andb_true_iff in Hd as [_ [Hc _]%andb_true_iff]. congruence.
Qed.

Lemma keyword_no_slash (ty : string) :
  ty = "orgs" ∨ ty = "users" → Str.all Str.not_slash ty = true.
Proof. by intros [-> | ->]. Qed.

(** In a board URL no match starts at the slash before the host. *)
Lemma match_here_host (host kw own t : string) :
  Str.all Str.not_slash host = true →
  Str.all Str.not_slash kw = true →
  Str.all Str.not_slash own = true →
  match_here ("/" +:+ host +:+ "/" +:+ kw +:+ "/" +:+ own
                  +:+ "/projects/" +:+ t) = None.
Proof.
  intros Hhost Hkw Hown.
  destruct (match_here _) as [g|] eqn:E; [exfalso | done].
  apply match_here_sound in E as (r & Hp & _).
  destruct Hp as (He & Hty & _ & Hown' & Hnum & Hdig).
  injection He as He.
  apply segment_unique in He as [_ He];
    [|done | by apply keyword_no_slash].
  apply segment_unique in He as [_ He]; [|done..].
  apply (segment_unique own "projects") in He as [_ He]; [|done..].
  destruct (g_prjNumber g) as [|d num']; [done|].
  injection He as <- _. done.
Qed.

End URLForms.

(** X1.  A board URL in its usual form parses to its own parts: the owner
    segment, whether the keyword is [orgs], and the double nearest to the
    number, which is the number itself when it is at most 2^53. *)
Theorem parseURL_board_url (scheme host kw own num rest : string) :
  Str.all Str.not_slash scheme = true →
  Str.all Str.not_slash host = true →
  kw = "orgs" ∨ kw = "users" →
  own ≠ EmptyString → Str.all Str.not_slash own = true →
  num ≠ EmptyString → Str.all Str.is_digit num = true →
  Str.head_satisfies Str.is_digit rest = false →
  parseURL (board_url scheme host kw own num rest)
  = inr {| owner := own; projectNumber := Str.parseInt num;
           isOrg := bool_decide (kw = "orgs") |}
  ∧ Str.parseInt num = Str.to_double (decimal_value num)
  ∧ (decimal_value num <= 2 ^ 53 →
     Str.parseInt num = Finite (decimal_value num)).
Proof.
  intros Hs Hh Hkw Hown Hown' Hnum Hnum' Hrest.
  split; [|split; [by apply parseInt_digits | by apply parseInt_exact]].
  unfold parseURL, board_url.
  rewrite regex_match_skip by done.
  change ("://" +:+ ?x) with (String ":" (String "/" (String "/" x))).
  rewrite regex_match_cons, match_here_not_slash by done.
  rewrite regex_match_cons.
  assert (∀ t, match_here (String "/" (String "/" t)) = None) as ->
    by done.
  rewrite regex_match_cons.
  change (String "/" (host +:+ ?x)) with ("/" +:+ host +:+ x).
  rewrite (match_here_host host kw own (num +:+ rest))
    by (try done; by apply keyword_no_slash).
  rewrite regex_match_skip by done.
  assert (match_here ("/" +:+ kw +:+ "/" +:+ own +:+ "/projects/"
                          +:+ num +:+ rest)
          = Some (mkGroups kw own num)) as Hm.
  { apply (match_here_exact _ kw own num rest); [|done]. by split. }
  change ("/" +:+ ?x) with (String "/" x) in Hm |- *.
  by rewrite regex_match_cons, Hm.
Qed.

(** X2.  Whatever [parseURL] returns as the owner is one non-empty path
    segment of the URL: it has no slash, and the URL reads
    [.../orgs/<owner>/projects/...] when [isOrg] is true and
    [.../users/<owner>/projects/...] when it is false. *)
Theorem parseURL_owner_segment (url : string) (d : ProjectDesc) :
  parseURL url = inr d →
  owner d ≠ EmptyString
  ∧ Str.all Str.not_slash (owner d) = true
  ∧ ∃ pre rest,
      url = pre +:+ "/" +:+ (if isOrg d then "orgs" else "users") +:+ "/"
                +:+ owner d +:+ "/projects/" +:+ rest.
Proof.
  intros (pre & ty & own & num & rest & Hf & <- & _ & Hi)%parseURL_inr_iff.
  destruct Hf as ((-> & Hty & Hne & Hall & _) & _).
  split; [done|]. split; [done|]. exists pre, (num +:+ rest).
  destruct (isOrg d).
  - by rewrite (proj1 Hi eq_refl).
  - destruct Hty as [->| ->]; [|done]. discriminate (proj2 Hi eq_refl).
Qed.

(** X3.  Text without a slash in front of a URL does not change what is
    parsed: the same descriptor, or a failure in both cases. *)
Theorem parseURL_slashless_prefix (pre url : string) :
  Str.all Str.not_slash pre = true →
  parseURL (pre +:+ url)
  = match parseURL url with
    | inl _ => inl (InvalidURL (pre +:+ url))
    | inr d => inr d
    end.
Proof.
  intros Hpre. unfold parseURL. rewrite regex_match_skip by done.
  by destruct (regex_match url).
Qed.

(** X4.  A string in which [/projects/] does not occur is rejected with
    [InvalidURL]. *)
Theorem parseURL_needs_projects (url : string) :
  Str.includes url "/projects/" = false →
  parseURL url = inl (InvalidURL url).
Proof.
  intros Hinc. apply parseURL_invalid_iff.
  intros (pre & ty & own & num & rest & -> & _).
  assert (Str.includes
            (pre +:+ "/" +:+ ty +:+ "/" +:+ own +:+ "/projects/"
                 +:+ num +:+ rest) "/projects/" = true) as Ht.
  { apply includes_spec.
    exists (pre +:+ "/" +:+ ty +:+ "/" +:+ own), (num +:+ rest).
    by rewrite !append_assoc. }
  congruence.
Qed.

(** ** Field Index: what [initFields] keeps *)

Section IndexFacts.

Implicit Types (entries : list ProjectFieldEntry) (entry : ProjectFieldEntry).
Implicit Types (fs : FieldsObject) (n : string).

Lemma last_kept_Some n entries entry :
  last_kept n entries = Some entry →
  entry ∈ entries ∧ is_Some (fieldId entry) ∧ fieldName entry = n.
Proof.
  unfold last_kept. intros H%last_Some_elem_of.
  apply list_elem_of_filter in H as [[? ?] ?]. done.
Qed.

Lemma index_wf_empty : index_wf ∅.
Proof. intros n e. rewrite fields_lookup_own. simpl. by rewrite lookup_empty. Qed.

Lemma initFields_wf entries fs :
  index_wf fs → index_wf (initFields entries fs).
Proof.
  intros Hwf n e. rewrite initFields_lookup.
  destruct (decide _); [done|].
  destruct (last_kept n entries) as [e'|] eqn:E.
  - intros [= <-]. by apply last_kept_Some in E as (_ & ? & ?).
  - apply Hwf.
Qed.

(** Among entries with pairwise different names, at most one has a given
    name. *)
Lemma kept_named_short n entries :
  NoDup (fieldName <$> filter (λ e, is_Some (fieldId e)) entries) →
  (length (filter (λ e, is_Some (fieldId e) ∧ fieldName e = n) entries)
   <= 1)%nat.
Proof.
  induction entries as [|e entries IH]; [simpl; lia|].
  rewrite !filter_cons.
  destruct (decide (is_Some (fieldId e))) as [Hid|Hid].
  - rewrite fmap_cons. intros [Hnotin Hnd]%NoDup_cons.
    destruct (decide (fieldName e = n)) as [Hn|Hn].
    + rewrite decide_True by done. simpl.
      assert (filter (λ e, is_Some (fieldId e) ∧ fieldName e = n) entries
              = []) as ->; [|simpl; lia].
      destruct (filter (λ e, is_Some (fieldId e) ∧ fieldName e = n)
                       entries) as [|e' l] eqn:El; [done|]. exfalso.
      assert (e' ∈ filter (λ e, is_Some (fieldId e) ∧ fieldName e = n)
                          entries) as Hin by (rewrite El; by left).
      apply list_elem_of_filter in Hin as [[? ?] ?].
      apply Hnotin, list_elem_of_fmap. exists e'.
      split; [congruence|]. by apply list_elem_of_filter.
    + rewrite decide_False by (by intros [_ ?]). by apply IH.
  - rewrite decide_False by (by intros [? _]). apply IH.
Qed.

(** With pairwise different names, a rearrangement has the same last entry
    under every name. *)
Lemma last_kept_perm n entries entries' :
  entries ≡ₚ entries' →
  NoDup (fieldName <$> filter (λ e, is_Some (fieldId e)) entries) →
  last_kept n entries = last_kept n entries'.
Proof.
  intros Hperm Hnd. unfold last_kept.
  pose proof (kept_named_short n entries Hnd) as Hlen.
  assert (filter (λ e, is_Some (fieldId e) ∧ fieldName e = n) entries
          ≡ₚ filter (λ e, is_Some (fieldId e) ∧ fieldName e = n) entries')
    as Hp by by rewrite Hperm.
  revert Hlen Hp.
  generalize (filter (λ e, is_Some (fieldId e) ∧ fieldName e = n) entries).
  intros [|e [|e2 l]] Hlen Hp; simpl in Hlen; [| |lia].
  - by apply Permutation_nil_l in Hp as <-.
  - by apply Permutation_singleton_l in Hp as <-.
Qed.

End IndexFacts.

(** X5.  The index is always well formed: the constructor starts from the
    empty index, and [init], whatever its outcome, keeps the property that
    every entry held has an id and is filed under its own name. *)
Theorem index_always_wf {W : Type} (remote : Remote W) :
  (∀ token url ds p, constructor token url ds = inr p → index_wf (fields p))
  ∧ (∀ s : State W,
       index_wf (fields (this s)) →
       index_wf (fields (this (init remote s).1))).
Proof.
  split.
  - intros token url ds p. unfold constructor.
    destruct (parseURL url); [done|]. intros [= <-]. simpl.
    apply index_wf_empty.
  - intros s Hwf. rewrite init_run. cbv zeta.
    destruct (remote_graphql remote _ _ _ _) as [w' [res|m]]; simpl; [|done].
    destruct (if isOrg _ then _ else _); [|done]. simpl.
    by apply initFields_wf.
Qed.

(** X6.  Indexing the same entries again changes nothing. *)
Theorem initFields_idempotent (entries : list ProjectFieldEntry)
    (fs : FieldsObject) :
  initFields entries (initFields entries fs) = initFields entries fs.
Proof.
  pose proof (initFields_proto_key entries fs) as Hkey.
  apply FieldsObject_eq.
  - intros n. rewrite (initFields_lookup entries (initFields entries fs)).
    rewrite (initFields_lookup entries fs n).
    repeat case_decide; destruct (last_kept n entries);
      destruct_and?; simplify_eq; try done; exfalso; intuition congruence.
  - rewrite (initFields_proto entries (initFields entries fs)).
    rewrite (initFields_proto entries fs).
    repeat case_decide; destruct (last_kept "__proto__" entries);
      try done; exfalso; intuition congruence.
Qed.

(** X7.  [initFields] adds to the index it is given and never removes: a
    name that was indexed stays indexed, and it keeps its entry unless an
    entry with an id carries that name. *)
Theorem initFields_never_forgets (entries : list ProjectFieldEntry)
    (fs : FieldsObject) (n : string) :
  is_Some (fs !! n) →
  is_Some (initFields entries fs !! n)
  ∧ (last_kept n entries = None → initFields entries fs !! n = fs !! n).
Proof.
  intros Hn. rewrite initFields_lookup.
  destruct (decide _) as [[-> Hp]|_].
  - rewrite Hp in Hn. by destruct Hn.
  - destruct (last_kept n entries); [split; [by eexists | done] | done].
Qed.

(** X8.  When the entries with an id have pairwise different names, their
    order does not matter: every rearrangement of the sequence gives the same
    index. *)
Theorem initFields_order_irrelevant (entries entries' : list ProjectFieldEntry)
    (fs : FieldsObject) :
  entries ≡ₚ entries' →
  NoDup (fieldName <$> filter (λ e, is_Some (fieldId e)) entries) →
  initFields entries fs = initFields entries' fs.
Proof.
  intros Hperm Hnd. apply FieldsObject_eq.
  - intros n. rewrite !initFields_lookup.
    by rewrite (last_kept_perm n entries entries').
  - rewrite !initFields_proto.
    by rewrite (last_kept_perm "__proto__" entries entries').
Qed.

(** ** Status Resolver: labels *)

Section Labels.

Context {W : Type}.
Variable toLowerCase : string → string.

Implicit Types (s : State W).

Lemma includes_refl (a : string) : Str.includes a a = true.
Proof.
  apply includes_spec. exists EmptyString, EmptyString.
  by rewrite append_empty_r.
Qed.

(** X9.  Only the lower-cased label matters: two labels with the same
    lower-casing resolve alike on every object. *)
Theorem getStatusField_label_case s (wanted wanted' : string) :
  toLowerCase wanted = toLowerCase wanted' →
  getStatusField toLowerCase wanted s = getStatusField toLowerCase wanted' s.
Proof.
  intros H. rewrite !getStatusField_run. unfold status_matches.
  by rewrite H.
Qed.

(** X10.  A label that is the name of one of the options always resolves:
    to that option, or to an earlier option whose name contains it. *)
Theorem getStatusField_option_name s (sf : ProjectFieldEntry) (i : nat)
    (o : FieldOption) :
  fields (this s) !! "Status" = Some sf →
  fieldOptions sf !! i = Some o →
  ∃ j o', (j <= i)%nat
          ∧ fieldOptions sf !! j = Some o'
          ∧ contains_ci toLowerCase (optName o') (optName o)
          ∧ getStatusField toLowerCase (optName o) s
            = (s, inr (Some (status_ref sf o'))).
Proof.
  intros Hsf Hi. rewrite getStatusField_run, Hsf.
  assert (status_matches toLowerCase (optName o) o = true) as Ho
    by apply includes_refl.
  pose proof (find_first (status_matches toLowerCase (optName o))
                         (fieldOptions sf)) as Hfind.
  destruct (find _ _) as [o'|].
  - destruct Hfind as (before & after & Hsplit & Ho' & Hb).
    exists (length before), o'. split; [|split; [|split; [|done]]].
    + destruct (decide (length before <= i)%nat) as [|Hgt]; [done|].
      exfalso. rewrite Hsplit, lookup_app_l in Hi by lia.
      apply list_elem_of_lookup_2 in Hi. apply Hb in Hi. congruence.
    + rewrite Hsplit. by rewrite list_lookup_middle.
    + by apply status_matches_spec.
  - apply list_elem_of_lookup_2 in Hi. apply Hfind in Hi. congruence.
Qed.

End Labels.

(** ** [init]: the schema query and what it stores *)

Section Init.

Context {W : Type}.
Variable remote : Remote W.

Implicit Types (s : State W).

(** X11.  [init] issues exactly one remote call on every path: the schema
    query for the owner, number and owner kind parsed at construction.  It
    never looks an item up and never mutates the board. *)
Theorem init_one_query s :
  trace (init remote s).1 = trace s ++ [schema_query (this s)].
Proof.
  rewrite init_run. cbv zeta. unfold schema_query.
  destruct (remote_graphql remote _ _ _ _) as [w' [res|m]]; simpl; [|done].
  by destruct (if isOrg _ then _ else _).
Qed.

(** X12.  [init] fails with [BoardNotFound] exactly when the schema query
    answered without the branch for the owner kind of the descriptor,
    whatever the other branch holds; the object is then left as it was. *)
Theorem init_board_not_found s :
  ((init remote s).2 = inl BoardNotFound
   ↔ ∃ res,
       (remote_graphql remote (owner (desc (this s)))
          (projectNumber (desc (this s))) (isOrg (desc (this s)))
          (world s)).2 = Returned res
       ∧ expected_branch (desc (this s)) res = None)
  ∧ ((init remote s).2 = inl BoardNotFound → this (init remote s).1 = this s).
Proof.
  rewrite init_run. cbv zeta. unfold expected_branch.
  destruct (remote_graphql remote _ _ _ _) as [w' [res|m]]; simpl.
  - destruct (if isOrg _ then _ else _) as [p|] eqn:E; simpl.
    + split; [|done]. split; [done|]. intros (res' & [= <-] & H). congruence.
    + split; [|done]. split; [|done]. intros _. by exists res.
  - split; [|done]. split; [done|]. by intros (res' & [=] & _).
Qed.

(** X13.  When the schema query answers with the expected branch, [init]
    stores the board id, adds the answered fields to the index it already
    has, keeps the descriptor and the default labels, and returns the id and
    the title. *)
Theorem init_success s (w' : W) (res : ProjectQueryResponse)
    (prjv2 : ProjectV2) :
  remote_graphql remote (owner (desc (this s)))
    (projectNumber (desc (this s))) (isOrg (desc (this s))) (world s)
  = (w', Returned res) →
  expected_branch (desc (this s)) res = Some prjv2 →
  init remote s
  = (mkState (initialised (this s) prjv2) w'
             (trace s ++ [schema_query (this s)]),
     inr (prjID prjv2, prjTitle prjv2)).
Proof.
  intros Hq Hb. rewrite init_run. cbv zeta. rewrite Hq.
  unfold expected_branch in Hb. by rewrite Hb.
Qed.

(** X14.  A second successful [init] on the same object replaces the board
    id and does not reset the index: the index is then the one built from
    the fields of the first answer followed by those of the second, so a
    field that only the first answer had is still indexed. *)
Theorem init_twice s (w1 w2 : W) (res1 res2 : ProjectQueryResponse)
    (p1 p2 : ProjectV2) :
  remote_graphql remote (owner (desc (this s)))
    (projectNumber (desc (this s))) (isOrg (desc (this s))) (world s)
  = (w1, Returned res1) →
  expected_branch (desc (this s)) res1 = Some p1 →
  remote_graphql remote (owner (desc (this s)))
    (projectNumber (desc (this s))) (isOrg (desc (this s))) w1
  = (w2, Returned res2) →
  expected_branch (desc (this s)) res2 = Some p2 →
  ∃ s2, init remote (init remote s).1 = (s2, inr (prjID p2, prjTitle p2))
        ∧ projectID (this s2) = Some (prjID p2)
        ∧ fields (this s2)
          = initFields (prjFieldNodes p1 ++ prjFieldNodes p2)
                       (fields (this s))
        ∧ ∀ n, is_Some (initFields (prjFieldNodes p1) (fields (this s)) !! n)
               → is_Some (fields (this s2) !! n).
Proof.
  intros H1 Hb1 H2 Hb2. unfold expected_branch in *.
  rewrite (init_run remote s). cbv zeta. rewrite H1, Hb1. simpl.
  rewrite init_run. cbv zeta. simpl. rewrite H2, Hb2.
  eexists. split; [done|]. simpl. split; [done|].
  split; [by rewrite initFields_app|].
  intros n Hn. rewrite initFields_lookup.
  destruct (decide _) as [[-> Hp]|_].
  - rewrite Hp in Hn. by destruct Hn.
  - by destruct (last_kept n (prjFieldNodes p2)).
Qed.

(** X27.  An exception of the schema query is passed on by [init] as it is,
    and the object is left as it was: no board id, no field is stored. *)
Theorem init_query_throws s (w' : W) (m : string) :
  remote_graphql remote (owner (desc (this s)))
    (projectNumber (desc (this s))) (isOrg (desc (this s))) (world s)
  = (w', Threw m) →
  init remote s
  = (mkState (this s) w' (trace s ++ [schema_query (this s)]),
     inl (Uncaught m)).
Proof. intros Hq. rewrite init_run. cbv zeta. by rewrite Hq. Qed.

End Init.

(** ** [addToProject]: its paths, one by one *)

Section Paths.

Context {W : Type}.
Variable remote : Remote W.
Variable toLowerCase : string → string.

Implicit Types (s : State W) (itemID pid : string) (isPR : bool).

(** What the status steps do to the trace: nothing, or one set-field-value
    call for the item, the "Status" field and one of its options that
    contains the label. *)
Lemma applyStatus_calls pid isPR (item : ProjectItem) s s2
    (r : error + string) :
  applyStatus remote toLowerCase pid isPR item s = (s2, r) →
  this s2 = this s
  ∧ ((trace s2 = trace s ∧ ∃ e, r = inl e)
     ∨ ∃ sf o,
         fields (this s) !! "Status" = Some sf
         ∧ o ∈ fieldOptions sf
         ∧ contains_ci toLowerCase (optName o) (wanted_status (this s) isPR)
         ∧ trace s2
           = trace s ++ [CallUpdateIssueStatus pid (prjItemID item)
                                               (fieldId sf) (optID o)]
         ∧ (r = inr (prjItemID item) ∨ ∃ m, r = inl (Uncaught m))).
Proof.
  rewrite applyStatus_run. cbv zeta.
  destruct (fields (this s) !! "Status") as [sf|] eqn:Esf;
    [|intros [= <- <-]; eauto].
  pose proof (find_first
                (status_matches toLowerCase (wanted_status (this s) isPR))
                (fieldOptions sf)) as Hfind.
  destruct (find _ _) as [o|]; [|intros [= <- <-]; eauto].
  destruct Hfind as (before & after & Hsplit & Ho & _).
  assert (o ∈ fieldOptions sf) as Hin.
  { rewrite Hsplit. apply elem_of_app. right. by left. }
  apply status_matches_spec in Ho.
  destruct (remote_updateIssueStatus remote _ _ _ _ _) as [w' [[]|m]];
    intros [= <- <-]; (split; [done|]); right; exists sf, o; eauto 10.
Qed.

(** What the membership steps do to the trace. *)
Lemma ensureMember_calls itemID pid s s1 (r : error + ProjectItem) :
  ensureMember remote itemID pid s = (s1, r) →
  trace s1 = trace s ++ [CallGetProjectItem itemID pid]
  ∨ (trace s1 = trace s ++ [CallGetProjectItem itemID pid;
                            CallAddProjectItem itemID pid]
     ∧ ∃ e, r = inl e)
  ∨ trace s1 = trace s ++ [CallGetProjectItem itemID pid;
                           CallAddProjectItem itemID pid;
                           CallGetProjectItem itemID pid].
Proof.
  rewrite ensureMember_run.
  destruct (remote_getProjectItem remote itemID pid (world s))
    as [w1 [[it|]|e]]; simpl; [intros [= <- <-]; by left| |
                               intros [= <- <-]; by left].
  destruct (remote_addProjectItem remote itemID pid w1)
    as [w2 [[newID|]|e]]; simpl;
    [|intros [= <- <-]; right; left; rewrite <- (assoc_L (++)); eauto..].
  destruct (remote_getProjectItem remote itemID pid w2)
    as [w3 [[it|]|e]]; simpl;
    [destruct (decide (prjItemID it ≠ newID))| |];
    intros [= <- <-]; right; right; by rewrite <- !(assoc_L (++)).
Qed.

(** The item that the membership steps produce is the board item that the
    remote gives for the item. *)
Lemma ensureMember_found itemID pid s s1 (item : ProjectItem) :
  ensureMember remote itemID pid s = (s1, inr item) →
  board_item_found remote itemID pid (world s) (prjItemID item).
Proof.
  rewrite ensureMember_run. unfold board_item_found.
  destruct (remote_getProjectItem remote itemID pid (world s))
    as [w1 [[it|]|e]] eqn:E1; simpl; [intros [= _ <-]; eauto| |done].
  destruct (remote_addProjectItem remote itemID pid w1)
    as [w2 [[newID|]|e]] eqn:E2; simpl; [|done..].
  destruct (remote_getProjectItem remote itemID pid w2)
    as [w3 [[it|]|e]] eqn:E3; simpl; [|done..].
  destruct (decide (prjItemID it ≠ newID)) as [|Heq]; [done|].
  intros [= _ <-]. right.
  assert (prjItemID it = newID) as Hid
    by (destruct (decide (prjItemID it = newID)); [done | by destruct Heq]).
  exists w1, w2, w3, it. by rewrite Hid.
Qed.

End Paths.

Section PathTheorems.

Context {W : Type}.
Variable remote : Remote W.
Variable toLowerCase : string → string.

Implicit Types (s : State W) (itemID pid : string) (isPR : bool).

(** X15.  An item that is already on the board: one lookup, then one
    set-field-value call for the board item found, the "Status" field and the
    first option that contains the label; no add.  The id of the board item
    found is returned. *)
Theorem addToProject_member itemID isPR s pid (w1 w2 : W)
    (it : ProjectItem) (sf : ProjectFieldEntry) (o : FieldOption) :
  projectID (this s) = Some pid →
  remote_getProjectItem remote itemID pid (world s)
  = (w1, Returned (Some it)) →
  fields (this s) !! "Status" = Some sf →
  find (status_matches toLowerCase (wanted_status (this s) isPR))
       (fieldOptions sf) = Some o →
  remote_updateIssueStatus remote pid (prjItemID it) (fieldId sf) (optID o) w1
  = (w2, Returned tt) →
  addToProject remote toLowerCase itemID isPR s
  = (mkState (this s) w2
       (trace s ++ [CallGetProjectItem itemID pid;
                    CallUpdateIssueStatus pid (prjItemID it) (fieldId sf)
                                          (optID o)]),
     inr (prjItemID it)).
Proof.
  intros Hpid H1 Hsf Ho Hu.
  rewrite addToProject_stages, Hpid, ensureMember_run, H1. simpl.
  rewrite applyStatus_run. simpl. rewrite Hsf, Ho, Hu.
  by rewrite <- (assoc_L (++)).
Qed.

(** X16.  An item that is not yet on the board: lookup, add, second lookup,
    set-field-value, in this order and once each.  The id that the add call
    returned is the one the status is set on and the one returned. *)
Theorem addToProject_new_item itemID isPR s pid (w1 w2 w3 w4 : W)
    (A : string) (sf : ProjectFieldEntry) (o : FieldOption) :
  projectID (this s) = Some pid →
  remote_getProjectItem remote itemID pid (world s) = (w1, Returned None) →
  remote_addProjectItem remote itemID pid w1 = (w2, Returned (Some A)) →
  remote_getProjectItem remote itemID pid w2
  = (w3, Returned (Some (mkProjectItem A))) →
  fields (this s) !! "Status" = Some sf →
  find (status_matches toLowerCase (wanted_status (this s) isPR))
       (fieldOptions sf) = Some o →
  remote_updateIssueStatus remote pid A (fieldId sf) (optID o) w3
  = (w4, Returned tt) →
  addToProject remote toLowerCase itemID isPR s
  = (mkState (this s) w4
       (trace s ++ [CallGetProjectItem itemID pid;
                    CallAddProjectItem itemID pid;
                    CallGetProjectItem itemID pid;
                    CallUpdateIssueStatus pid A (fieldId sf) (optID o)]),
     inr A).
Proof.
  intros Hpid H1 H2 H3 Hsf Ho Hu.
  rewrite addToProject_stages, Hpid, ensureMember_run, H1, H2, H3. simpl.
  rewrite decide_False by (by intros ?).
  rewrite applyStatus_run. simpl. rewrite Hsf, Ho, Hu.
  by rewrite <- !(assoc_L (++)).
Qed.

(** X17.  When the add call throws, whatever it throws, the failure is
    [AddFailed]: the exception is not passed on.  Nothing is called after the
    add: no second lookup, no set-field-value. *)
Theorem addToProject_add_throws itemID isPR s pid (w1 w2 : W) (m : string) :
  projectID (this s) = Some pid →
  remote_getProjectItem remote itemID pid (world s) = (w1, Returned None) →
  remote_addProjectItem remote itemID pid w1 = (w2, Threw m) →
  addToProject remote toLowerCase itemID isPR s
  = (mkState (this s) w2
       (trace s ++ [CallGetProjectItem itemID pid;
                    CallAddProjectItem itemID pid]),
     inl AddFailed).
Proof.
  intros Hpid H1 H2.
  rewrite addToProject_stages, Hpid, ensureMember_run, H1, H2. simpl.
  by rewrite <- !(assoc_L (++)).
Qed.

(** X18.  When the add call returns no id, the failure is [AddReturnedNoID];
    the board is not looked up again and no status is set. *)
Theorem addToProject_add_no_id itemID isPR s pid (w1 w2 : W) :
  projectID (this s) = Some pid →
  remote_getProjectItem remote itemID pid (world s) = (w1, Returned None) →
  remote_addProjectItem remote itemID pid w1 = (w2, Returned None) →
  addToProject remote toLowerCase itemID isPR s
  = (mkState (this s) w2
       (trace s ++ [CallGetProjectItem itemID pid;
                    CallAddProjectItem itemID pid]),
     inl AddReturnedNoID).
Proof.
  intros Hpid H1 H2.
  rewrite addToProject_stages, Hpid, ensureMember_run, H1, H2. simpl.
  by rewrite <- !(assoc_L (++)).
Qed.

(** X19.  When the lookup after a successful add still finds nothing, the
    failure is [MembershipNotFoundAfterAdd]; the add is not repeated and no
    status is set. *)
Theorem addToProject_missing_after_add itemID isPR s pid (w1 w2 w3 : W)
    (A : string) :
  projectID (this s) = Some pid →
  remote_getProjectItem remote itemID pid (world s) = (w1, Returned None) →
  remote_addProjectItem remote itemID pid w1 = (w2, Returned (Some A)) →
  remote_getProjectItem remote itemID pid w2 = (w3, Returned None) →
  addToProject remote toLowerCase itemID isPR s
  = (mkState (this s) w3
       (trace s ++ [CallGetProjectItem itemID pid;
                    CallAddProjectItem itemID pid;
                    CallGetProjectItem itemID pid]),
     inl MembershipNotFoundAfterAdd).
Proof.
  intros Hpid H1 H2 H3.
  rewrite addToProject_stages, Hpid, ensureMember_run, H1, H2, H3. simpl.
  by rewrite <- !(assoc_L (++)).
Qed.

(** X20.  An exception of the first lookup is passed on as it is, and
    nothing else is called: no mutation is attempted. *)
Theorem addToProject_lookup_throws itemID isPR s pid (w1 : W) (m : string) :
  projectID (this s) = Some pid →
  remote_getProjectItem remote itemID pid (world s) = (w1, Threw m) →
  addToProject remote toLowerCase itemID isPR s
  = (mkState (this s) w1 (trace s ++ [CallGetProjectItem itemID pid]),
     inl (Uncaught m)).
Proof.
  intros Hpid H1.
  by rewrite addToProject_stages, Hpid, ensureMember_run, H1.
Qed.

(** X21.  An exception of the set-field-value call is passed on as it is.
    Whatever the membership steps did stays done: nothing is called after the
    failed call, so an item that was just added stays on the board without
    the status. *)
Theorem addToProject_update_throws itemID isPR s pid s1 (w2 : W)
    (item : ProjectItem) (sf : ProjectFieldEntry) (o : FieldOption)
    (m : string) :
  projectID (this s) = Some pid →
  ensureMember remote itemID pid s = (s1, inr item) →
  fields (this s) !! "Status" = Some sf →
  find (status_matches toLowerCase (wanted_status (this s) isPR))
       (fieldOptions sf) = Some o →
  remote_updateIssueStatus remote pid (prjItemID item) (fieldId sf) (optID o)
                           (world s1)
  = (w2, Threw m) →
  addToProject remote toLowerCase itemID isPR s
  = (mkState (this s) w2
       (trace s1 ++ [CallUpdateIssueStatus pid (prjItemID item) (fieldId sf)
                                           (optID o)]),
     inl (Uncaught m)).
Proof.
  intros Hpid E Hsf Ho Hu.
  rewrite addToProject_stages, Hpid, E, applyStatus_run. cbv zeta.
  apply ensureMember_frame in E as (-> & _).
  by rewrite Hsf, Ho, Hu.
Qed.

(** X22.  When the label matches no option of the "Status" field and the
    item was not on the board, the item has been added by the time
    [StatusValueNotFound] is raised: the add call was issued, nothing undoes
    it, and no status is set. *)
Theorem addToProject_added_without_status itemID isPR s pid (w1 w2 w3 : W)
    (A : string) (sf : ProjectFieldEntry) :
  projectID (this s) = Some pid →
  remote_getProjectItem remote itemID pid (world s) = (w1, Returned None) →
  remote_addProjectItem remote itemID pid w1 = (w2, Returned (Some A)) →
  remote_getProjectItem remote itemID pid w2
  = (w3, Returned (Some (mkProjectItem A))) →
  fields (this s) !! "Status" = Some sf →
  find (status_matches toLowerCase (wanted_status (this s) isPR))
       (fieldOptions sf) = None →
  addToProject remote toLowerCase itemID isPR s
  = (mkState (this s) w3
       (trace s ++ [CallGetProjectItem itemID pid;
                    CallAddProjectItem itemID pid;
                    CallGetProjectItem itemID pid]),
     inl (StatusValueNotFound (wanted_status (this s) isPR))).
Proof.
  intros Hpid H1 H2 H3 Hsf Ho.
  rewrite addToProject_stages, Hpid, ensureMember_run, H1, H2, H3. simpl.
  rewrite decide_False by (by intros ?).
  rewrite applyStatus_run. simpl. rewrite Hsf, Ho.
  by rewrite <- !(assoc_L (++)).
Qed.

Local Ltac member_cases H :=
  repeat (apply elem_of_cons in H as [?|H]);
  try (by apply elem_of_nil in H); simplify_eq.

(** X23.  The calls of one [addToProject] on an initialised object, whatever
    its outcome: between one and four, the first a lookup; every lookup and
    add names the given item and the board of the object; at most one add and
    at most one set-field-value, the latter only as the last call, for the
    board of the object, for the board item that the remote gave for the
    given item, and for the "Status" field and one of its options; the
    schema query is never issued. *)
Theorem addToProject_calls itemID isPR s pid :
  projectID (this s) = Some pid →
  ∃ cs,
    trace (addToProject remote toLowerCase itemID isPR s).1 = trace s ++ cs
    ∧ head cs = Some (CallGetProjectItem itemID pid)
    ∧ (length cs <= 4)%nat
    ∧ Forall (λ c, call_targets itemID pid c = true) cs
    ∧ (count_adds cs <= 1)%nat
    ∧ (length (filter is_update cs) <= 1)%nat
    ∧ (∀ c, c ∈ cs → is_update c = true → last cs = Some c)
    ∧ ∀ b i f o,
        CallUpdateIssueStatus b i f o ∈ cs →
        b = pid
        ∧ board_item_found remote itemID pid (world s) i
        ∧ ∃ sf o', fields (this s) !! "Status" = Some sf ∧ f = fieldId sf
                   ∧ o' ∈ fieldOptions sf ∧ o = optID o'.
Proof.
  intros Hpid. rewrite addToProject_stages, Hpid.
  assert (call_targets itemID pid (CallGetProjectItem itemID pid) = true)
    as Hg by (by apply bool_decide_eq_true).
  assert (call_targets itemID pid (CallAddProjectItem itemID pid) = true)
    as Ha by (by apply bool_decide_eq_true).
  assert (∀ i f o, call_targets itemID pid (CallUpdateIssueStatus pid i f o)
                   = true) as Hu by (intros; by apply bool_decide_eq_true).
  destruct (ensureMember remote itemID pid s) as [s1 [e|item]] eqn:E.
  - apply ensureMember_calls in E as [E|[[E _]|E]]; simpl; rewrite E;
      eexists; (split; [done|]); (split; [done|]);
      (split; [simpl; lia|]); (split; [by repeat constructor|]);
      (split; [cbv; lia|]); (split; [cbv; lia|]);
      (split; [intros c Hc Hup; by member_cases Hc
              | intros b i f o Hc; by member_cases Hc]).
  - pose proof (ensureMember_found _ _ _ _ _ _ E) as Hfound.
    pose proof E as E'. apply ensureMember_frame in E' as (Hthis & _).
    destruct (applyStatus remote toLowerCase pid isPR item s1)
      as [s2 r] eqn:E2.
    apply applyStatus_calls in E2
      as (_ & [[E2 _]|(sf & o & Hsf & Hin & _ & E2 & _)]);
      simpl; rewrite E2; rewrite ?Hthis in *;
      apply ensureMember_calls in E as [E|[[E [e He]]|E]]; try done;
      rewrite E, <- ?(assoc_L (++)); simpl;
      eexists; (split; [done|]); (split; [done|]);
      (split; [simpl; lia|]); (split; [by repeat constructor|]);
      (split; [cbv; lia|]); (split; [cbv; lia|]);
      (split; [intros c Hc Hup; by member_cases Hc
              | intros b i f o' Hc; member_cases Hc; eauto 10]).
Qed.

(** X24.  When [addToProject] returns an id, its last call was the
    set-field-value call for that id, the id of the "Status" field, and the
    id of an option of that field whose name contains the label chosen by
    [isPullRequest]. *)
Theorem addToProject_success itemID isPR s s' pid (id : string) :
  projectID (this s) = Some pid →
  addToProject remote toLowerCase itemID isPR s = (s', inr id) →
  ∃ sf o,
    fields (this s) !! "Status" = Some sf
    ∧ o ∈ fieldOptions sf
    ∧ contains_ci toLowerCase (optName o) (wanted_status (this s) isPR)
    ∧ last (trace s')
      = Some (CallUpdateIssueStatus pid id (fieldId sf) (optID o)).
Proof.
  intros Hpid. rewrite addToProject_stages, Hpid.
  destruct (ensureMember remote itemID pid s) as [s1 [e|item]] eqn:E;
    [done|].
  apply ensureMember_frame in E as (Hthis & _).
  intros E2. pose proof E2 as E3.
  apply applyStatus_calls in E2
    as (_ & [[_ [e He]]|(sf & o & Hsf & Hin & Hc & Htr & Hr)]); [done|].
  rewrite Hthis in Hsf, Hc. exists sf, o. repeat (split; [done|]).
  rewrite Htr, last_snoc.
  destruct Hr as [[= <-]|[m Hm]]; [done | discriminate Hm].
Qed.

(** X25.  From construction to the first item: once the constructor has
    accepted the URL and [init] has returned the board id, [addToProject] is
    initialised; every lookup and add names that board id and the given item;
    and every set-field-value call names that board id, the board item that
    the remote gave for the given item, and a field by a defined id. *)
Theorem constructor_init_addToProject (token url : string)
    (ds : DefaultStatus) (p : Project) (w : W) (s1 : State W)
    (id title : string) itemID isPR :
  constructor token url ds = inr p →
  init remote (mkState p w []) = (s1, inr (id, title)) →
  projectID (this s1) = Some id
  ∧ (addToProject remote toLowerCase itemID isPR s1).2 ≠ inl NotInitialized
  ∧ ∃ cs,
      trace (addToProject remote toLowerCase itemID isPR s1).1
      = trace s1 ++ cs
      ∧ Forall (λ c, call_targets itemID id c = true) cs
      ∧ ∀ b i f o,
          CallUpdateIssueStatus b i f o ∈ cs →
          b = id ∧ board_item_found remote itemID id (world s1) i
          ∧ is_Some f.
Proof.
  intros Hc Hi.
  assert (index_wf (fields (this s1)) ∧ projectID (this s1) = Some id)
    as [Hwf Hpid].
  { unfold constructor in Hc. destruct (parseURL url) as [|d]; [done|].
    injection Hc as <-. rewrite init_run in Hi. cbv zeta in Hi.
    simpl in Hi.
    destruct (remote_graphql remote _ _ _ _) as [w' [res|m]];
      simpl in Hi; [|done].
    destruct (if isOrg d then _ else _) as [prj|]; [|done].
    injection Hi as <- <- _. simpl. split; [|done].
    apply initFields_wf, index_wf_empty. }
  split; [done|]. rewrite addToProject_stages, Hpid.
  assert (call_targets itemID id (CallGetProjectItem itemID id) = true)
    as Hg by (by apply bool_decide_eq_true).
  assert (call_targets itemID id (CallAddProjectItem itemID id) = true)
    as Ha by (by apply bool_decide_eq_true).
  assert (∀ i f o, call_targets itemID id (CallUpdateIssueStatus id i f o)
                   = true) as Hu by (intros; by apply bool_decide_eq_true).
  destruct (ensureMember remote itemID id s1) as [sa [e|item]] eqn:E.
  - split.
    { simpl. apply ensureMember_errors in E
        as [H|[H|[H|[(? & ? & H)|(? & H)]]]]; by rewrite H. }
    apply ensureMember_calls in E as [E|[[E _]|E]]; simpl; rewrite E;
      eexists; (split; [done|]); (split; [by repeat constructor|]);
      intros b i f o Hin; by member_cases Hin.
  - pose proof (ensureMember_found _ _ _ _ _ _ E) as Hfound.
    pose proof E as E'. apply ensureMember_frame in E' as (Hthis & _).
    destruct (applyStatus remote toLowerCase id isPR item sa)
      as [s2 r] eqn:E2.
    pose proof E2 as E3.
    apply applyStatus_calls in E2
      as (_ & [[E2 [e He]]|(sf & o & Hsf & _ & _ & E2 & Hr)]); simpl.
    + split; [subst r; rewrite applyStatus_run in E3; cbv zeta in E3|].
      { intros [= ->].
        destruct (fields (this sa) !! "Status") as [sf|]; [|done].
        destruct (find _ _) as [o|]; [|done].
        by destruct (remote_updateIssueStatus remote _ _ _ _ _)
          as [w' [[]|m]]. }
      rewrite E2.
      apply ensureMember_calls in E as [E|[[E [e' He']]|E]]; try done;
        rewrite E; eexists; (split; [done|]);
        (split; [by repeat constructor|]);
        intros b i f o Hin; by member_cases Hin.
    + split; [by destruct Hr as [->|[m ->]]|].
      rewrite Hthis in Hsf. destruct (Hwf _ _ Hsf) as [Hid _].
      rewrite E2.
      apply ensureMember_calls in E as [E|[[E [e' He']]|E]]; try done;
        rewrite E, <- ?(assoc_L (++)); simpl; eexists; (split; [done|]);
        (split; [by repeat constructor|]);
        intros b i f o' Hin; by member_cases Hin.
Qed.

(** X26.  An exception of the lookup that follows a successful add is
    passed on as it is; the add stays done and no status is set. *)
Theorem addToProject_second_lookup_throws itemID isPR s pid (w1 w2 w3 : W)
    (A m : string) :
  projectID (this s) = Some pid →
  remote_getProjectItem remote itemID pid (world s) = (w1, Returned None) →
  remote_addProjectItem remote itemID pid w1 = (w2, Returned (Some A)) →
  remote_getProjectItem remote itemID pid w2 = (w3, Threw m) →
  addToProject remote toLowerCase itemID isPR s
  = (mkState (this s) w3
       (trace s ++ [CallGetProjectItem itemID pid;
                    CallAddProjectItem itemID pid;
                    CallGetProjectItem itemID pid]),
     inl (Uncaught m)).
Proof.
  intros Hpid H1 H2 H3.
  rewrite addToProject_stages, Hpid, ensureMember_run, H1, H2, H3. simpl.
  by rewrite <- !(assoc_L (++)).
Qed.

(** X28.  The failures of [addToProject] are the eight kinds below and no
    other: it never fails with [InvalidURL] or [BoardNotFound], and a
    [StatusValueNotFound] always carries the label chosen by
    [isPullRequest]. *)
Theorem addToProject_errors itemID isPR s s' (e : error) :
  addToProject remote toLowerCase itemID isPR s = (s', inl e) →
  e = NotInitialized ∨ e = MissingStatusField
  ∨ e = StatusValueNotFound (wanted_status (this s) isPR)
  ∨ e = AddFailed ∨ e = AddReturnedNoID ∨ e = MembershipNotFoundAfterAdd
  ∨ (∃ found added, e = MembershipIDMismatch found added)
  ∨ (∃ m, e = Uncaught m).
Proof.
  rewrite addToProject_stages.
  destruct (projectID (this s)) as [pid|]; [|intros [= _ <-]; eauto].
  destruct (ensureMember remote itemID pid s) as [s1 [e1|item]] eqn:E.
  - intros [= _ <-]. apply ensureMember_errors in E. tauto.
  - apply ensureMember_frame in E as (Hthis & _).
    rewrite applyStatus_run. cbv zeta. rewrite Hthis.
    destruct (fields (this s) !! "Status") as [sf|];
      [|intros [= _ <-]; eauto].
    destruct (find _ _) as [o|]; [|intros [= _ <-]; eauto 10].
    destruct (remote_updateIssueStatus remote _ _ _ _ _) as [w' [[]|m]];
      [done|]. intros [= _ <-]. eauto 10.
Qed.

End PathTheorems.

(** ** The further properties on concrete inputs *)

Lemma parseURL_board_url_witness :
  parseURL (board_url "https" "github.com" "orgs" "acme" "7" "/views/1")
  = inr {| owner := "acme"; projectNumber := Str.parseInt "7";
           isOrg := bool_decide ("orgs" = "orgs") |}
  ∧ Str.parseInt "7" = Str.to_double (decimal_value "7")
  ∧ (decimal_value "7" <= 2 ^ 53 →
     Str.parseInt "7" = Finite (decimal_value "7")).
Proof.
  apply (parseURL_board_url "https" "github.com" "orgs" "acme" "7"
           "/views/1"); try reflexivity; try discriminate.
  left; reflexivity.
Defined.

Lemma parseURL_owner_segment_witness :
  owner (mkProjectDesc "jdoe" (Finite 42) false) ≠ EmptyString
  ∧ Str.all Str.not_slash (owner (mkProjectDesc "jdoe" (Finite 42) false)) = true
  ∧ ∃ pre rest,
      "https://github.com/users/jdoe/projects/42"
      = pre +:+ "/"
            +:+ (if isOrg (mkProjectDesc "jdoe" (Finite 42) false)
                 then "orgs" else "users")
            +:+ "/" +:+ owner (mkProjectDesc "jdoe" (Finite 42) false)
            +:+ "/projects/" +:+ rest.
Proof.
  apply (parseURL_owner_segment "https://github.com/users/jdoe/projects/42"
           (mkProjectDesc "jdoe" (Finite 42) false)).
  reflexivity.
Defined.

Lemma parseURL_slashless_prefix_witness :
  parseURL ("github.com" +:+ "/orgs/acme/projects/7")
  = match parseURL "/orgs/acme/projects/7" with
    | inl _ => inl (InvalidURL ("github.com" +:+ "/orgs/acme/projects/7"))
    | inr d => inr d
    end.
Proof.
  apply (parseURL_slashless_prefix "github.com" "/orgs/acme/projects/7").
  reflexivity.
Defined.

Lemma parseURL_needs_projects_witness :
  parseURL "https://github.com/wipwd/custom-project-status"
  = inl (InvalidURL "https://github.com/wipwd/custom-project-status").
Proof.
  apply (parseURL_needs_projects
           "https://github.com/wipwd/custom-project-status").
  reflexivity.
Defined.

Lemma initFields_never_forgets_witness :
  is_Some (initFields [status_entry opts_done] (initFields [prio_entry] ∅)
             !! "Priority")
  ∧ (last_kept "Priority" [status_entry opts_done] = None →
     initFields [status_entry opts_done] (initFields [prio_entry] ∅)
       !! "Priority"
     = initFields [prio_entry] ∅ !! "Priority").
Proof.
  apply (initFields_never_forgets [status_entry opts_done]
           (initFields [prio_entry] ∅) "Priority").
  exists prio_entry. reflexivity.
Defined.

Lemma initFields_order_irrelevant_witness :
  initFields [status_entry opts_done; prio_entry] ∅
  = initFields [prio_entry; status_entry opts_done] ∅.
Proof.
  apply (initFields_order_irrelevant [status_entry opts_done; prio_entry]
           [prio_entry; status_entry opts_done] ∅).
  - apply Permutation_swap.
  - apply (bool_decide_unpack _). reflexivity.
Defined.

Lemma getStatusField_label_case_witness :
  getStatusField Str.ascii_toLowerCase "DONE" st_done
  = getStatusField Str.ascii_toLowerCase "done" st_done.
Proof.
  apply (getStatusField_label_case Str.ascii_toLowerCase st_done
           "DONE" "done").
  reflexivity.
Defined.

Lemma getStatusField_option_name_witness :
  ∃ j o', (j <= 2)%nat
          ∧ fieldOptions (status_entry opts_done) !! j = Some o'
          ∧ contains_ci Str.ascii_toLowerCase (optName o')
                        (optName (mkFieldOption "c" "✅ Done"))
          ∧ getStatusField Str.ascii_toLowerCase
              (optName (mkFieldOption "c" "✅ Done")) st_done
            = (st_done, inr (Some (status_ref (status_entry opts_done) o'))).
Proof.
  apply (getStatusField_option_name Str.ascii_toLowerCase st_done
           (status_entry opts_done) 2 (mkFieldOption "c" "✅ Done"));
    reflexivity.
Defined.

Lemma init_success_witness :
  init Script.remote
       (mkState project_new [Script.Schema (Returned (res_org prj0))] [])
  = (mkState (initialised project_new prj0) []
             ([] ++ [schema_query project_new]),
     inr (prjID prj0, prjTitle prj0)).
Proof.
  apply (init_success Script.remote
           (mkState project_new [Script.Schema (Returned (res_org prj0))] [])
           [] (res_org prj0) prj0); reflexivity.
Defined.

Lemma init_twice_witness :
  ∃ s2,
    init Script.remote
      (init Script.remote
         (mkState project_new
                  [Script.Schema (Returned (res_org prj0));
                   Script.Schema (Returned (res_org prj1))] [])).1
    = (s2, inr (prjID prj1, prjTitle prj1))
    ∧ projectID (this s2) = Some (prjID prj1)
    ∧ fields (this s2)
      = initFields (prjFieldNodes prj0 ++ prjFieldNodes prj1)
                   (fields project_new)
    ∧ ∀ n, is_Some (initFields (prjFieldNodes prj0) (fields project_new)
                      !! n)
           → is_Some (fields (this s2) !! n).
Proof.
  apply (init_twice Script.remote
           (mkState project_new
                    [Script.Schema (Returned (res_org prj0));
                     Script.Schema (Returned (res_org prj1))] [])
           [Script.Schema (Returned (res_org prj1))] []
           (res_org prj0) (res_org prj1) prj0 prj1); reflexivity.
Defined.

Lemma addToProject_member_witness :
  addToProject Script.remote Str.ascii_toLowerCase "I_1" false
    (script_state [Script.Item (Returned (Some item9));
                   Script.Updated (Returned tt)])
  = (mkState (project_with [status_entry opts_backlog]) []
       ([] ++ [CallGetProjectItem "I_1" "PVT_1";
               CallUpdateIssueStatus "PVT_1" (prjItemID item9)
                 (fieldId (status_entry opts_backlog)) (optID opt_backlog)]),
     inr (prjItemID item9)).
Proof.
  apply (addToProject_member Script.remote Str.ascii_toLowerCase "I_1" false
           (script_state [Script.Item (Returned (Some item9));
                          Script.Updated (Returned tt)])
           "PVT_1" [Script.Updated (Returned tt)] [] item9
           (status_entry opts_backlog) opt_backlog); reflexivity.
Defined.

Lemma addToProject_new_item_witness :
  addToProject Script.remote Str.ascii_toLowerCase "I_1" false
    (script_state [Script.Item (Returned None);
                   Script.Added (Returned (Some "PVTI_9"));
                   Script.Item (Returned (Some item9));
                   Script.Updated (Returned tt)])
  = (mkState (project_with [status_entry opts_backlog]) []
       ([] ++ [CallGetProjectItem "I_1" "PVT_1";
               CallAddProjectItem "I_1" "PVT_1";
               CallGetProjectItem "I_1" "PVT_1";
               CallUpdateIssueStatus "PVT_1" "PVTI_9"
                 (fieldId (status_entry opts_backlog)) (optID opt_backlog)]),
     inr "PVTI_9").
Proof.
  apply (addToProject_new_item Script.remote Str.ascii_toLowerCase
           "I_1" false
           (script_state [Script.Item (Returned None);
                          Script.Added (Returned (Some "PVTI_9"));
                          Script.Item (Returned (Some item9));
                          Script.Updated (Returned tt)])
           "PVT_1"
           [Script.Added (Returned (Some "PVTI_9"));
            Script.Item (Returned (Some item9));
            Script.Updated (Returned tt)]
           [Script.Item (Returned (Some item9));
            Script.Updated (Returned tt)]
           [Script.Updated (Returned tt)] []
           "PVTI_9" (status_entry opts_backlog) opt_backlog); reflexivity.
Defined.

Lemma addToProject_add_throws_witness :
  addToProject Script.remote Str.ascii_toLowerCase "I_1" false
    (script_state [Script.Item (Returned None);
                   Script.Added (Threw "rate limited")])
  = (mkState (project_with [status_entry opts_backlog]) []
       ([] ++ [CallGetProjectItem "I_1" "PVT_1";
               CallAddProjectItem "I_1" "PVT_1"]),
     inl AddFailed).
Proof.
  apply (addToProject_add_throws Script.remote Str.ascii_toLowerCase
           "I_1" false
           (script_state [Script.Item (Returned None);
                          Script.Added (Threw "rate limited")])
           "PVT_1" [Script.Added (Threw "rate limited")] [] "rate limited");
    reflexivity.
Defined.

Lemma addToProject_add_no_id_witness :
  addToProject Script.remote Str.ascii_toLowerCase "I_1" false
    (script_state [Script.Item (Returned None);
                   Script.Added (Returned None)])
  = (mkState (project_with [status_entry opts_backlog]) []
       ([] ++ [CallGetProjectItem "I_1" "PVT_1";
               CallAddProjectItem "I_1" "PVT_1"]),
     inl AddReturnedNoID).
Proof.
  apply (addToProject_add_no_id Script.remote Str.ascii_toLowerCase
           "I_1" false
           (script_state [Script.Item (Returned None);
                          Script.Added (Returned None)])
           "PVT_1" [Script.Added (Returned None)] []); reflexivity.
Defined.

Lemma addToProject_missing_after_add_witness :
  addToProject Script.remote Str.ascii_toLowerCase "I_1" false
    (script_state [Script.Item (Returned None);
                   Script.Added (Returned (Some "PVTI_9"));
                   Script.Item (Returned None)])
  = (mkState (project_with [status_entry opts_backlog]) []
       ([] ++ [CallGetProjectItem "I_1" "PVT_1";
               CallAddProjectItem "I_1" "PVT_1";
               CallGetProjectItem "I_1" "PVT_1"]),
     inl MembershipNotFoundAfterAdd).
Proof.
  apply (addToProject_missing_after_add Script.remote Str.ascii_toLowerCase
           "I_1" false
           (script_state [Script.Item (Returned None);
                          Script.Added (Returned (Some "PVTI_9"));
                          Script.Item (Returned None)])
           "PVT_1"
           [Script.Added (Returned (Some "PVTI_9"));
            Script.Item (Returned None)]
           [Script.Item (Returned None)] [] "PVTI_9"); reflexivity.
Defined.

Lemma addToProject_lookup_throws_witness :
  addToProject Script.remote Str.ascii_toLowerCase "I_1" false
    (script_state [Script.Item (Threw "network")])
  = (mkState (project_with [status_entry opts_backlog]) []
       ([] ++ [CallGetProjectItem "I_1" "PVT_1"]),
     inl (Uncaught "network")).
Proof.
  apply (addToProject_lookup_throws Script.remote Str.ascii_toLowerCase
           "I_1" false (script_state [Script.Item (Threw "network")])
           "PVT_1" [] "network"); reflexivity.
Defined.

Lemma addToProject_update_throws_witness :
  addToProject Script.remote Str.ascii_toLowerCase "I_1" false
    (script_state [Script.Item (Returned (Some item9));
                   Script.Updated (Threw "forbidden")])
  = (mkState (project_with [status_entry opts_backlog]) []
       ([CallGetProjectItem "I_1" "PVT_1"]
        ++ [CallUpdateIssueStatus "PVT_1" (prjItemID item9)
              (fieldId (status_entry opts_backlog)) (optID opt_backlog)]),
     inl (Uncaught "forbidden")).
Proof.
  apply (addToProject_update_throws Script.remote Str.ascii_toLowerCase
           "I_1" false
           (script_state [Script.Item (Returned (Some item9));
                          Script.Updated (Threw "forbidden")])
           "PVT_1"
           (mkState (project_with [status_entry opts_backlog])
                    [Script.Updated (Threw "forbidden")]
                    [CallGetProjectItem "I_1" "PVT_1"])
           [] item9 (status_entry opts_backlog) opt_backlog "forbidden");
    reflexivity.
Defined.

Lemma addToProject_added_without_status_witness :
  addToProject Script.remote Str.ascii_toLowerCase "I_1" true
    (script_state [Script.Item (Returned None);
                   Script.Added (Returned (Some "PVTI_9"));
                   Script.Item (Returned (Some item9))])
  = (mkState (project_with [status_entry opts_backlog]) []
       ([] ++ [CallGetProjectItem "I_1" "PVT_1";
               CallAddProjectItem "I_1" "PVT_1";
               CallGetProjectItem "I_1" "PVT_1"]),
     inl (StatusValueNotFound
            (wanted_status (project_with [status_entry opts_backlog]) true))).
Proof.
  apply (addToProject_added_without_status Script.remote
           Str.ascii_toLowerCase "I_1" true
           (script_state [Script.Item (Returned None);
                          Script.Added (Returned (Some "PVTI_9"));
                          Script.Item (Returned (Some item9))])
           "PVT_1"
           [Script.Added (Returned (Some "PVTI_9"));
            Script.Item (Returned (Some item9))]
           [Script.Item (Returned (Some item9))] []
           "PVTI_9" (status_entry opts_backlog)); reflexivity.
Defined.

Lemma addToProject_calls_witness :
  ∃ cs,
    trace (addToProject Board.remote Str.ascii_toLowerCase "I_1" false st_absent).1 = trace st_absent ++ cs
    ∧ head cs = Some (CallGetProjectItem "I_1" "PVT_1")
    ∧ (length cs <= 4)%nat
    ∧ Forall (λ c, call_targets "I_1" "PVT_1" c = true) cs
    ∧ (count_adds cs <= 1)%nat
    ∧ (length (filter is_update cs) <= 1)%nat
    ∧ (∀ c, c ∈ cs → is_update c = true → last cs = Some c)
    ∧ ∀ b i f o,
        CallUpdateIssueStatus b i f o ∈ cs →
        b = "PVT_1"
        ∧ board_item_found Board.remote "I_1" "PVT_1" (world st_absent) i
        ∧ ∃ sf o', fields (this st_absent) !! "Status" = Some sf ∧ f = fieldId sf
                   ∧ o' ∈ fieldOptions sf ∧ o = optID o'.
Proof.
  apply (addToProject_calls Board.remote Str.ascii_toLowerCase "I_1" false
           st_absent "PVT_1").
  reflexivity.
Defined.

Lemma addToProject_success_witness :
  ∃ sf o,
    fields (this st_absent) !! "Status" = Some sf
    ∧ o ∈ fieldOptions sf
    ∧ contains_ci Str.ascii_toLowerCase (optName o)
                  (wanted_status (this st_absent) false)
    ∧ last (trace (addToProject Board.remote Str.ascii_toLowerCase "I_1"
                                false st_absent).1)
      = Some (CallUpdateIssueStatus "PVT_1" "PVTI_I_1" (fieldId sf)
                                    (optID o)).
Proof.
  apply (addToProject_success Board.remote Str.ascii_toLowerCase "I_1" false
           st_absent _ "PVT_1" "PVTI_I_1"); [reflexivity | by vm_compute].
Defined.

Lemma constructor_init_addToProject_witness :
  projectID (this st_first_item) = Some "PVT_1"
  ∧ (addToProject Script.remote Str.ascii_toLowerCase "I_1" false st_first_item).2 ≠ inl NotInitialized
  ∧ ∃ cs,
      trace (addToProject Script.remote Str.ascii_toLowerCase "I_1" false st_first_item).1
      = trace st_first_item ++ cs
      ∧ Forall (λ c, call_targets "I_1" "PVT_1" c = true) cs
      ∧ ∀ b i f o,
          CallUpdateIssueStatus b i f o ∈ cs →
          b = "PVT_1" ∧ board_item_found Script.remote "I_1" "PVT_1" (world st_first_item) i
          ∧ is_Some f.
Proof.
  apply (constructor_init_addToProject Script.remote Str.ascii_toLowerCase
           "token" "https://github.com/orgs/acme/projects/7" ds0
           project_new
           [Script.Schema (Returned (res_org prj0));
            Script.Item (Returned (Some item9));
            Script.Updated (Returned tt)]
           st_first_item "PVT_1" "Roadmap" "I_1" false); reflexivity.
Defined.

Lemma addToProject_second_lookup_throws_witness :
  addToProject Script.remote Str.ascii_toLowerCase "I_1" false
    (script_state [Script.Item (Returned None);
                   Script.Added (Returned (Some "PVTI_9"));
                   Script.Item (Threw "timeout")])
  = (mkState (project_with [status_entry opts_backlog]) []
       ([] ++ [CallGetProjectItem "I_1" "PVT_1";
               CallAddProjectItem "I_1" "PVT_1";
               CallGetProjectItem "I_1" "PVT_1"]),
     inl (Uncaught "timeout")).
Proof.
  apply (addToProject_second_lookup_throws Script.remote
           Str.ascii_toLowerCase "I_1" false
           (script_state [Script.Item (Returned None);
                          Script.Added (Returned (Some "PVTI_9"));
                          Script.Item (Threw "timeout")])
           "PVT_1"
           [Script.Added (Returned (Some "PVTI_9"));
            Script.Item (Threw "timeout")]
           [Script.Item (Threw "timeout")] [] "PVTI_9" "timeout");
    reflexivity.
Defined.

Lemma init_query_throws_witness :
  init Script.remote
       (mkState project_new [Script.Schema (Threw "bad credentials")] [])
  = (mkState project_new [] ([] ++ [schema_query project_new]),
     inl (Uncaught "bad credentials")).
Proof.
  apply (init_query_throws Script.remote
           (mkState project_new [Script.Schema (Threw "bad credentials")] [])
           [] "bad credentials"); reflexivity.
Defined.

Lemma addToProject_errors_witness :
  AddFailed = NotInitialized ∨ AddFailed = MissingStatusField
  ∨ AddFailed
    = StatusValueNotFound
        (wanted_status (project_with [status_entry opts_backlog]) false)
  ∨ AddFailed = AddFailed ∨ AddFailed = AddReturnedNoID
  ∨ AddFailed = MembershipNotFoundAfterAdd
  ∨ (∃ found added, AddFailed = MembershipIDMismatch found added)
  ∨ (∃ m, AddFailed = Uncaught m).
Proof.
  apply (addToProject_errors Script.remote Str.ascii_toLowerCase "I_1" false
           (script_state [Script.Item (Returned None);
                          Script.Added (Threw "rate limited")])
           (mkState (project_with [status_entry opts_backlog]) []
                    [CallGetProjectItem "I_1" "PVT_1";
                     CallAddProjectItem "I_1" "PVT_1"])
           AddFailed).
  reflexivity.
Defined.

Lemma initFields_index_witness :
  own (initFields two_fields ∅) = fold_left index_step two_fields ∅
  ∧ proto (initFields two_fields ∅) = None
  ∧ keys (initFields two_fields ∅) = kept_names two_fields
  ∧ (∀ n, n ∈ keys (initFields two_fields ∅) ↔
          ∃ e, e ∈ two_fields ∧ is_Some (fieldId e) ∧ fieldName e = n)
  ∧ (∀ n, initFields two_fields ∅ !! n = last_kept n two_fields)
  ∧ (∀ before e after,
       two_fields = before ++ e :: after →
       is_Some (fieldId e) →
       (∀ e', e' ∈ after → is_Some (fieldId e') →
              fieldName e' ≠ fieldName e) →
       initFields two_fields ∅ !! fieldName e = Some e)
  ∧ initFields [] ∅ = ∅.
Proof. apply (initFields_index two_fields). reflexivity. Defined.
